(** * Golden Ear: the game engine of [src/App.tsx]

    A shallow embedding of the [App] component: its reactive state cells,
    the closures [getAvailableNotes], [playCurrentNote], [startGame] and
    [handleKeyPress], the callbacks they hand to [setTimeout], and the
    events the rendered interface can deliver.  Rendering itself (the 3D
    scene, styling) is not modelled; what is kept of [GameUI] and [Piano]
    is which controls exist in which game state. *)

From Stdlib Require Import ZArith QArith Qround String List Sorted Bool Lia.
Import ListNotations.

Open Scope string_scope.
Open Scope Z_scope.

(** ** Note catalog *)

(** [const NOTES: { [key: string]: number }].  Frequencies are decimal
    literals, kept as exact rationals. *)
Definition NOTES_table : list (string * Q) :=
  [ ("C4", 26163 # 100); ("C#4", 27718 # 100); ("D4", 29366 # 100); ("D#4", 31113 # 100);
    ("E4", 32963 # 100); ("F4", 34923 # 100); ("F#4", 36999 # 100); ("G4", 39200 # 100);
    ("G#4", 41530 # 100); ("A4", 44000 # 100); ("A#4", 46616 # 100); ("B4", 49388 # 100);
    ("C5", 52325 # 100); ("C#5", 55437 # 100); ("D5", 58733 # 100); ("D#5", 62225 # 100);
    ("E5", 65926 # 100); ("F5", 69846 # 100); ("F#5", 73999 # 100); ("G5", 78399 # 100);
    ("G#5", 83061 # 100); ("A5", 88000 # 100); ("A#5", 93233 # 100); ("B5", 98777 # 100) ]%Q.

Fixpoint lookup {A : Type} (k : string) (tbl : list (string * A)) : option A :=
  match tbl with
  | [] => None
  | (k', v) :: rest => if String.eqb k k' then Some v else lookup k rest
  end.

(** [NOTES[note]] as far as it is a number: the frequency of the entry, or
    [None] when the table has no such entry.  There the source finds
    [undefined] or, for a name that every object inherits ([constructor],
    [toString], ...), that member of [Object.prototype]; neither is a
    number, and the value only ever goes to [playNote]. *)
Definition NOTES (note : string) : option Q := lookup note NOTES_table.

(** [NOTES[x]] where [x] may itself be [undefined] (an out-of-range array
    read): no entry of the table matches. *)
Definition NOTES_opt (note : option string) : option Q :=
  match note with
  | Some n => NOTES n
  | None => None
  end.

Definition WHITE_KEYS : list string :=
  ["C4"; "D4"; "E4"; "F4"; "G4"; "A4"; "B4"; "C5"; "D5"; "E5"; "F5"; "G5"; "A5"; "B5"].

Definition BLACK_KEYS : list string :=
  ["C#4"; "D#4"; "F#4"; "G#4"; "A#4"; "C#5"; "D#5"; "F#5"; "G#5"; "A#5"].

(** The keys [Piano] renders, each with [onClick = () => onPress(note)]. *)
Definition piano_keys : list string := WHITE_KEYS ++ BLACK_KEYS.

(** [keyMap] of the keyboard effect: its entries.  For a name that every
    object inherits the source's [keyMap[...]] finds that member of
    [Object.prototype] rather than [undefined]; see [inherited] below. *)
Definition keyMap_table : list (string * string) :=
  [ ("a", "C4"); ("w", "C#4"); ("s", "D4"); ("e", "D#4"); ("d", "E4");
    ("f", "F4"); ("t", "F#4"); ("g", "G4"); ("y", "G#4"); ("h", "A4");
    ("u", "A#4"); ("j", "B4"); ("k", "C5"); ("o", "C#5"); ("l", "D5");
    ("p", "D#5"); (";", "E5") ].

Definition keyMap (key : string) : option string := lookup key keyMap_table.

(** ** State cells of [App] *)

Inductive GameState := idle | playing | waiting.

Inductive Difficulty := easy | medium | hard.

Definition GameState_eqb (a b : GameState) : bool :=
  match a, b with
  | idle, idle | playing, playing | waiting, waiting => true
  | _, _ => false
  end.

(** One field per [useState] cell; [None] is [null].  [score] and [streak]
    are JavaScript numbers that only ever hold integers, kept in [Z]. *)
Record State := mkState {
  score : Z;
  streak : Z;
  gameState : GameState;
  currentNote : option string;
  pressedKey : option string;
  correctKey : option string;
  wrongKey : option string;
  targetKey : option string;
  feedback : string;
  difficulty : Difficulty
}.

(** [useState] initial values. *)
Definition initial_state : State :=
  mkState 0 0 idle None None None None None "" medium.

(** [note === currentNote] for [note : string], [currentNote : string | null]. *)
Definition strict_eq (note : string) (current : option string) : bool :=
  match current with
  | Some c => String.eqb note c
  | None => false
  end.

(** Interpolation [${currentNote}] inside a template literal. *)
Definition interpolate (o : option string) : string :=
  match o with
  | Some s => s
  | None => "null"
  end.

(** ** Commands issued by the closures

    A closure of a render is embedded as the list of calls it makes, in
    source order, computed from the values the closure captured. *)

(** Callbacks handed to [setTimeout].  [startGame] is called from two of
    them; the callback holds the [startGame] of the render in which
    [handleKeyPress] was created, hence that render. *)
Inductive Task :=
| ClearPressed                      (* () => setPressedKey(null) *)
| AfterCorrect (render : State)     (* () => { setCorrectKey(null); startGame() } *)
| AfterWrong (render : State)       (* () => { setWrongKey(null); setTargetKey(null); startGame() } *)
| PlayThenWait (randomNote : option string)
                                    (* () => { playNote(NOTES[randomNote]); setTimeout(.., 500) } *)
| EnterWaiting.                     (* () => setGameState('waiting') *)

Inductive Cmd :=
| setScore (f : Z -> Z)
| setStreak (f : Z -> Z)
| setGameState (g : GameState)
| setCurrentNote (n : option string)
| setPressedKey (n : option string)
| setCorrectKey (n : option string)
| setWrongKey (n : option string)
| setTargetKey (n : option string)
| setFeedback (s : string)
| setDifficulty (d : Difficulty)
| playNote (frequency : option Q)
| setTimeout (callback : Task) (ms : Z).

(** [getAvailableNotes], closed over [difficulty]. *)
Definition getAvailableNotes (render : State) : list string :=
  match difficulty render with
  | easy => firstn 7 WHITE_KEYS
  | medium => WHITE_KEYS
  | hard => (WHITE_KEYS ++ BLACK_KEYS)%list
  end.

(** [notes[i]] for an integer index: [undefined] outside the array. *)
Definition array_get (notes : list string) (i : Z) : option string :=
  if i <? 0 then None else nth_error notes (Z.to_nat i).

(** [Math.floor(Math.random() * notes.length)], with [rnd] the value
    [Math.random()] returned.  The draw is taken as an exact rational.
    The source floors the product rounded to a double, which is the next
    integer when the exact product lies within rounding distance below
    it; for the lengths 7, 14 and 24 the rounded product of a double below
    1 is still below the length, so either index is inside the array. *)
Definition random_index (rnd : Q) (notes : list string) : Z :=
  Qfloor (rnd * inject_Z (Z.of_nat (length notes))).

(** [playCurrentNote]. *)
Definition playCurrentNote (render : State) : list Cmd :=
  match currentNote render with
  | Some n => [playNote (NOTES n)]
  | None => []
  end.

(** [startGame]. *)
Definition startGame (render : State) (rnd : Q) : list Cmd :=
  let notes := getAvailableNotes render in
  let randomNote := array_get notes (random_index rnd notes) in
  [ setCurrentNote randomNote;
    setGameState playing;
    setFeedback "";
    setCorrectKey None;
    setWrongKey None;
    setTargetKey None;
    setTimeout (PlayThenWait randomNote) 300 ].

(** [handleKeyPress], closed over [gameState], [currentNote], [streak]
    and [startGame]. *)
Definition handleKeyPress (render : State) (note : string) : list Cmd :=
  match gameState render with
  | waiting =>
      [ setPressedKey (Some note);
        playNote (NOTES note);
        setTimeout ClearPressed 200 ]
      ++
      (if strict_eq note (currentNote render) then
         [ setCorrectKey (Some note);
           setScore (fun s => s + 10 * (streak render + 1));
           setStreak (fun s => s + 1);
           setFeedback "✓ PERFECT!";
           setTimeout (AfterCorrect render) 1200 ]
       else
         [ setWrongKey (Some note);
           setTargetKey (currentNote render);
           setStreak (fun _ => 0);
           setFeedback ("✗ It was " ++ interpolate (currentNote render));
           setTimeout (AfterWrong render) 2000 ])
  | _ => []
  end.

(** [handleKeyDown] of the keyboard effect; [key] is [e.key.toLowerCase()].
    The keys of the table are embedded; a key whose name is [inherited]
    is not (the source would take the inherited member as the guess). *)
Definition handleKeyDown (render : State) (key : string) : list Cmd :=
  match keyMap key with
  | Some note =>
      if GameState_eqb (gameState render) waiting
      then handleKeyPress render note
      else []
  | None => []
  end.

(** The body of a timer callback; [rnd] is what [Math.random()] returns
    should the callback reach [startGame]. *)
Definition task_body (t : Task) (rnd : Q) : list Cmd :=
  match t with
  | ClearPressed => [setPressedKey None]
  | AfterCorrect render => setCorrectKey None :: startGame render rnd
  | AfterWrong render => setWrongKey None :: setTargetKey None :: startGame render rnd
  | PlayThenWait randomNote => [playNote (NOTES_opt randomNote); setTimeout EnterWaiting 500]
  | EnterWaiting => [setGameState waiting]
  end.

(** ** The world the commands act on *)

(** Pending timers, each with the time at which it falls due, in the
    order in which they will fire. *)
Definition TimerQueue := list (Z * Task).

(** Besides the state cells: a clock in milliseconds, the pending timers
    and the tone requests made so far (oldest first). *)
Record World := mkWorld {
  ui : State;
  now : Z;
  timers : TimerQueue;
  tones : list (option Q)
}.

Definition initial : World := mkWorld initial_state 0 [] [].

(** A timer joins the queue behind every timer due no later than itself. *)
Fixpoint schedule (e : Z * Task) (q : TimerQueue) : TimerQueue :=
  match q with
  | [] => [e]
  | x :: q' => if fst e <? fst x then e :: q else x :: schedule e q'
  end.

Definition apply_setter (c : Cmd) (s : State) : State :=
  match c with
  | setScore f =>
      mkState (f (score s)) (streak s) (gameState s) (currentNote s) (pressedKey s)
              (correctKey s) (wrongKey s) (targetKey s) (feedback s) (difficulty s)
  | setStreak f =>
      mkState (score s) (f (streak s)) (gameState s) (currentNote s) (pressedKey s)
              (correctKey s) (wrongKey s) (targetKey s) (feedback s) (difficulty s)
  | setGameState g =>
      mkState (score s) (streak s) g (currentNote s) (pressedKey s)
              (correctKey s) (wrongKey s) (targetKey s) (feedback s) (difficulty s)
  | setCurrentNote n =>
      mkState (score s) (streak s) (gameState s) n (pressedKey s)
              (correctKey s) (wrongKey s) (targetKey s) (feedback s) (difficulty s)
  | setPressedKey n =>
      mkState (score s) (streak s) (gameState s) (currentNote s) n
              (correctKey s) (wrongKey s) (targetKey s) (feedback s) (difficulty s)
  | setCorrectKey n =>
      mkState (score s) (streak s) (gameState s) (currentNote s) (pressedKey s)
              n (wrongKey s) (targetKey s) (feedback s) (difficulty s)
  | setWrongKey n =>
      mkState (score s) (streak s) (gameState s) (currentNote s) (pressedKey s)
              (correctKey s) n (targetKey s) (feedback s) (difficulty s)
  | setTargetKey n =>
      mkState (score s) (streak s) (gameState s) (currentNote s) (pressedKey s)
              (correctKey s) (wrongKey s) n (feedback s) (difficulty s)
  | setFeedback f =>
      mkState (score s) (streak s) (gameState s) (currentNote s) (pressedKey s)
              (correctKey s) (wrongKey s) (targetKey s) f (difficulty s)
  | setDifficulty d =>
      mkState (score s) (streak s) (gameState s) (currentNote s) (pressedKey s)
              (correctKey s) (wrongKey s) (targetKey s) (feedback s) d
  | playNote _ => s
  | setTimeout _ _ => s
  end.

(** One command.  State updates of one handler are batched by React; as
    every updater is applied in call order, applying them one by one gives
    the state of the next render. *)
Definition exec1 (c : Cmd) (w : World) : World :=
  match c with
  | playNote f => mkWorld (ui w) (now w) (timers w) (tones w ++ [f])
  | setTimeout t ms => mkWorld (ui w) (now w) (schedule (now w + ms, t) (timers w)) (tones w)
  | _ => mkWorld (apply_setter c (ui w)) (now w) (timers w) (tones w)
  end.

(** A handler run to its end, as it runs when [playNote] returns from
    each of its requests (see [handle] for the general case). *)
Definition exec (cmds : list Cmd) (w : World) : World :=
  fold_left (fun acc c => exec1 c acc) cmds w.

(** The handler of the current render, invoked on the current world: an
    event is served by the closures of the render that shows every
    earlier update. *)
Definition dispatch (handler : State -> list Cmd) (w : World) : World :=
  exec (handler (ui w)) w.

(** *** [playNote]

    The body of [playNote] hands [frequency] to
    [oscillator.frequency.setValueAtTime], which raises a [TypeError]
    unless it is given a finite number; nothing catches it, in [playNote]
    or in its callers, so the handler that made the request ends at that
    call and the exception reaches the handler's caller.  State updates
    requested before the call stand. *)
Definition playNote_returns (frequency : option Q) : bool :=
  match frequency with
  | Some _ => true
  | None => false
  end.

Inductive Outcome :=
| Returned (w : World)      (* the handler ran to its end *)
| Threw (w : World).        (* an exception left the handler *)

(** A handler, with the exception [playNote] may raise. *)
Fixpoint handle (cmds : list Cmd) (w : World) : Outcome :=
  match cmds with
  | [] => Returned w
  | playNote f :: rest =>
      if playNote_returns f then handle rest (exec1 (playNote f) w)
      else Threw (exec1 (playNote f) w)
  | c :: rest => handle rest (exec1 c w)
  end.

(** ** Events *)

(** What can happen to the running page.  [t] is the time of a user
    event; [rnd] what [Math.random()] returns if the event reaches
    [startGame]. *)
Inductive Event :=
| Begin (t : Z) (rnd : Q)                 (* click on BEGIN *)
| ChangeDifficulty (t : Z) (d : Difficulty) (* click on a difficulty button *)
| ReplayNote (t : Z)                      (* click on REPLAY NOTE *)
| ClickKey (t : Z) (note : string)        (* click on a piano key *)
| KeyDown (t : Z) (key : string)          (* keydown on the window *)
| Fire (rnd : Q).                         (* the next pending timer fires *)

(** [Math.random()] returns a number in [[0, 1)]. *)
Definition is_random (rnd : Q) : bool :=
  Qle_bool 0 rnd && negb (Qle_bool 1 rnd).

Definition at_time (t : Z) (w : World) : World :=
  mkWorld (ui w) t (timers w) (tones w).

(** One event.  [None]: the event cannot happen in this world.  [GameUI]
    renders BEGIN and the difficulty buttons only when [gameState ===
    'idle'], REPLAY NOTE only when [gameState === 'playing']; [Piano]
    renders its keys always; time does not run backwards. *)
Definition step (ev : Event) (w : World) : option World :=
  match ev with
  | Begin t rnd =>
      if (now w <=? t) && GameState_eqb (gameState (ui w)) idle && is_random rnd
      then Some (dispatch (fun r => startGame r rnd) (at_time t w))
      else None
  | ChangeDifficulty t d =>
      if (now w <=? t) && GameState_eqb (gameState (ui w)) idle
      then Some (dispatch (fun _ => [setDifficulty d]) (at_time t w))
      else None
  | ReplayNote t =>
      if (now w <=? t) && GameState_eqb (gameState (ui w)) playing
      then Some (dispatch playCurrentNote (at_time t w))
      else None
  | ClickKey t note =>
      if (now w <=? t) && existsb (String.eqb note) piano_keys
      then Some (dispatch (fun r => handleKeyPress r note) (at_time t w))
      else None
  | KeyDown t key =>
      if now w <=? t
      then Some (dispatch (fun r => handleKeyDown r key) (at_time t w))
      else None
  | Fire rnd =>
      match timers w with
      | (due, task) :: rest =>
          if is_random rnd
          then Some (exec (task_body task rnd)
                          (mkWorld (ui w) (Z.max (now w) due) rest (tones w)))
          else None
      | [] => None
      end
  end.

Fixpoint run (evs : list Event) (w : World) : option World :=
  match evs with
  | [] => Some w
  | ev :: evs' =>
      match step ev w with
      | Some w' => run evs' w'
      | None => None
      end
  end.

(** ** Rounds, as read off a run

    Classifications of an event by the world it arrives in; they are used
    to state properties of runs and play no part in the execution. *)

(** The event is a guess that is accepted and is not the target. *)
Definition wrong_guess (ev : Event) (w : World) : bool :=
  let misses note :=
    GameState_eqb (gameState (ui w)) waiting
    && negb (strict_eq note (currentNote (ui w))) in
  match ev with
  | ClickKey _ note => misses note
  | KeyDown _ key =>
      match keyMap key with
      | Some note => misses note
      | None => false
      end
  | _ => false
  end.

(** The event executes [startGame]. *)
Definition starts_round (ev : Event) (w : World) : bool :=
  match ev with
  | Begin _ _ => true
  | Fire _ =>
      match timers w with
      | (_, AfterCorrect _) :: _ => true
      | (_, AfterWrong _) :: _ => true
      | _ => false
      end
  | _ => false
  end.

(** A run that also tracks whether the current round has seen an
    incorrect guess. *)
Fixpoint run_rounds (evs : list Event) (w : World) (missed : bool)
  : option (World * bool) :=
  match evs with
  | [] => Some (w, missed)
  | ev :: evs' =>
      match step ev w with
      | Some w' =>
          run_rounds evs' w'
            (if starts_round ev w then false else missed || wrong_guess ev w)
      | None => None
      end
  end.

(** The piano hands a key to the [handleKeyPress] of the current render. *)
Definition pressKey (note : string) (w : World) : World :=
  dispatch (fun render => handleKeyPress render note) w.

(** [onChangeDifficulty={setDifficulty}]: the state setter itself. *)
Definition changeDifficulty (d : Difficulty) (w : World) : World :=
  dispatch (fun _ => [setDifficulty d]) w.

(** [text.includes(part)], used to say what a feedback text mentions. *)
Fixpoint includes (text part : string) : bool :=
  String.prefix part text
  || match text with
     | EmptyString => false
     | String _ rest => includes rest part
     end.

(** Commands that write a given cell. *)
Definition sets_difficulty (c : Cmd) : bool :=
  match c with setDifficulty _ => true | _ => false end.

(** ** What every reachable world satisfies *)

(** A pending restart holds the [startGame] of the difficulty now
    selected; a pending tone is for a key of the piano. *)
Definition task_sound (d : Difficulty) (t : Task) : Prop :=
  match t with
  | AfterCorrect r => difficulty r = d
  | AfterWrong r => difficulty r = d
  | PlayThenWait o => exists n, o = Some n /\ In n piano_keys
  | ClearPressed => True
  | EnterWaiting => True
  end.

Record Sound (w : World) : Prop := mkSound {
  sound_idle : gameState (ui w) = idle -> timers w = [];
  sound_note : forall n, currentNote (ui w) = Some n -> In n piano_keys;
  sound_timers : Forall (fun e => task_sound (difficulty (ui w)) (snd e)) (timers w);
  sound_tones : Forall (fun f => f <> None) (tones w)
}.

(** ** Sample runs *)

(** BEGIN is clicked, the tone plays after 300 ms, the state becomes
    waiting 500 ms later; the draw 0 selects the first note. *)
Definition first_round : list Event := [Begin 0 0; Fire 0; Fire 0].

Definition waiting_C4 : World :=
  mkWorld (mkState 0 0 waiting (Some "C4") None None None None "" medium)
          800 [] [Some (26163 # 100)%Q].

(** Two rounds guessed right, the third one waiting for its guess. *)
Definition two_hits : list Event :=
  first_round
  ++ [ClickKey 1000 "C4"; Fire 0; Fire 0; Fire 0; Fire 0]
  ++ [ClickKey 3000 "C4"; Fire 0; Fire 0; Fire 0; Fire 0].

Definition third_round : World :=
  mkWorld (mkState 30 2 waiting (Some "C4") None None None None "" medium)
          5000 []
          (repeat (Some (26163 # 100)%Q) 5).

(** Round one right after the incorrect guess D4 at time 1000, and after
    the guess C4 that follows 100 ms later. *)
Definition first_guess_missed : World :=
  mkWorld (mkState 0 0 waiting (Some "C4") (Some "D4") None (Some "D4") (Some "C4")
                   "✗ It was C4" medium)
          1000 [(1200, ClearPressed); (3000, AfterWrong (ui waiting_C4))]
          [Some (26163 # 100)%Q; Some (29366 # 100)%Q].

Definition second_guess_hit : World :=
  mkWorld (mkState 10 1 waiting (Some "C4") (Some "C4") (Some "C4") (Some "D4")
                   (Some "C4") "✓ PERFECT!" medium)
          1100
          [(1200, ClearPressed); (1300, ClearPressed);
           (2300, AfterCorrect (ui first_guess_missed));
           (3000, AfterWrong (ui waiting_C4))]
          [Some (26163 # 100)%Q; Some (29366 # 100)%Q; Some (26163 # 100)%Q].

(** Round one after the incorrect guess D4, its restart still pending. *)
Definition miss_pending : World :=
  mkWorld (mkState 0 0 waiting (Some "C4") None None (Some "D4") (Some "C4")
                   "✗ It was C4" medium)
          1200 [(3000, AfterWrong (ui waiting_C4))]
          [Some (26163 # 100)%Q; Some (29366 # 100)%Q].

(** Round one with two incorrect guesses, 1.5 s apart. *)
Definition two_misses : list Event :=
  first_round ++ [ClickKey 1000 "D4"; Fire 0; ClickKey 2500 "E4"; Fire 0].

(** The restart scheduled by the guess D4 at 1000, due at 3000, and the
    one scheduled by the guess E4 at 2500, due at 4500; each holds the
    render its guess was made in. *)
Definition first_restart : Task := AfterWrong (ui waiting_C4).

Definition stale_restart : Task :=
  AfterWrong (mkState 0 0 waiting (Some "C4") None None (Some "D4") (Some "C4")
                      "✗ It was C4" medium).

(** The world after [two_misses]. *)
Definition round_one_missed : World :=
  mkWorld (mkState 0 0 waiting (Some "C4") None None (Some "E4") (Some "C4")
                   "✗ It was C4" medium)
          2700 [(3000, first_restart); (4500, stale_restart)]
          [Some (26163 # 100)%Q; Some (29366 # 100)%Q; Some (32963 # 100)%Q].

(** [first_restart] has fired with the draw 1/2: round two, target C5. *)
Definition round_two_started : World :=
  mkWorld (mkState 0 0 playing (Some "C5") None None None None "" medium)
          3000 [(3300, PlayThenWait (Some "C5")); (4500, stale_restart)]
          (tones round_one_missed).

(** Round two is waiting, G4 was guessed at 4000 and C5 is revealed. *)
Definition round_two_missed : World :=
  mkWorld (mkState 0 0 waiting (Some "C5") None None (Some "G4") (Some "C5")
                   "✗ It was C5" medium)
          4200
          [(4500, stale_restart);
           (6000, AfterWrong (mkState 0 0 waiting (Some "C5") None None None None
                                      "" medium))]
          (tones round_one_missed ++ [Some (52325 # 100)%Q; Some (39200 # 100)%Q]).

(** [stale_restart] has fired with the draw 0. *)
Definition round_two_replaced : World :=
  mkWorld (mkState 0 0 playing (Some "C4") None None None None "" medium)
          4500
          [(4800, PlayThenWait (Some "C4"));
           (6000, AfterWrong (mkState 0 0 waiting (Some "C5") None None None None
                                      "" medium))]
          (tones round_two_missed).

(** ** What the interface draws *)

(** [PianoKey]: the colour of a key, from the flags [Piano] passes and the
    key's own [hovered] cell. *)
Definition key_color (isBlack isCorrect isWrong isTarget hovered : bool) : string :=
  let color := if isBlack then "#1a1a1a" else "#faf8f5" in
  if isCorrect then "#22c55e"
  else if isWrong then "#ef4444"
  else if isTarget then "#fbbf24"
  else if hovered then (if isBlack then "#333" else "#d4a574")
  else color.

(** [Piano]: [isCorrect={correctKey === note}] and its siblings, for the
    key [note] drawn black or white. *)
Definition Piano_key_color (s : State) (isBlack : bool) (note : string) (hovered : bool)
  : string :=
  key_color isBlack
            (strict_eq note (correctKey s))
            (strict_eq note (wrongKey s))
            (strict_eq note (targetKey s))
            hovered.

(** [Piano]: the white key to whose right each black key is drawn. *)
Definition blackKeyOffsets : list nat := [0; 1; 3; 4; 5; 7; 8; 10; 11; 12]%nat.

(** The name of the black key above a white key: C4 gives C#4. *)
Definition sharpen (white : string) : string :=
  match white with
  | EmptyString => EmptyString
  | String letter octave => String letter ("#" ++ octave)
  end.

(** [GameUI]: the feedback line is drawn when [feedback] is not empty, in
    green when [feedback.includes('✓')] and in red otherwise. *)
Inductive FeedbackStyle := hidden | green | red.

Definition feedback_style (text : string) : FeedbackStyle :=
  if String.eqb text "" then hidden
  else if includes text "✓" then green
  else red.

(** ** Names that every object inherits *)

(** The property names of [Object.prototype].  [keyMap[name]] and
    [NOTES[name]] find these members although the tables have no such
    entry.  [e.key.toLowerCase()] can only be one of the two names in
    lower case, and no key of a keyboard is called so. *)
Definition Object_prototype_names : list string :=
  [ "constructor"; "__proto__"; "hasOwnProperty"; "isPrototypeOf";
    "propertyIsEnumerable"; "toLocaleString"; "toString"; "valueOf";
    "__defineGetter__"; "__defineSetter__"; "__lookupGetter__"; "__lookupSetter__" ].

Definition inherited (name : string) : bool :=
  existsb (String.eqb name) Object_prototype_names.

(** An event of the kinds embedded as the source has them: every event
    but a keydown whose key is an inherited name. *)
Definition ordinary (ev : Event) : bool :=
  match ev with
  | KeyDown _ key => negb (inherited key)
  | _ => true
  end.

(** ** Reading events and commands *)

(** The note an event submits as a guess, if it is a key event. *)
Definition guess_of (ev : Event) : option string :=
  match ev with
  | ClickKey _ note => Some note
  | KeyDown _ key => keyMap key
  | _ => None
  end.

Definition sets_score (c : Cmd) : bool :=
  match c with setScore _ => true | _ => false end.

Definition sets_streak (c : Cmd) : bool :=
  match c with setStreak _ => true | _ => false end.

(** A callback that leads a round from playing to waiting. *)
Definition leads_to_waiting (t : Task) : bool :=
  match t with
  | PlayThenWait _ => true
  | EnterWaiting => true
  | _ => false
  end.

(** What holds of the state cells in every reachable world, beyond
    [Sound]: the score account, the highlights and the feedback agree with
    the current target, and a round in the playing state has its way to
    the waiting state pending. *)
Record Steady (w : World) : Prop := mkSteady {
  steady_streak : 0 <= streak (ui w);
  steady_score : 5 * streak (ui w) * (streak (ui w) + 1) <= score (ui w);
  steady_tens : exists k, score (ui w) = 10 * k;
  steady_target : targetKey (ui w) = None \/ targetKey (ui w) = currentNote (ui w);
  steady_correct : forall n, correctKey (ui w) = Some n -> currentNote (ui w) = Some n;
  steady_wrong : forall n, wrongKey (ui w) = Some n -> currentNote (ui w) <> Some n;
  steady_feedback :
    feedback (ui w) = ""
    \/ feedback (ui w) = "✓ PERFECT!"
    \/ exists n, currentNote (ui w) = Some n /\ feedback (ui w) = "✗ It was " ++ n;
  steady_round : gameState (ui w) <> idle -> exists n, currentNote (ui w) = Some n;
  steady_fresh : gameState (ui w) = idle ->
                 score (ui w) = 0 /\ streak (ui w) = 0 /\ currentNote (ui w) = None
                 /\ timers w = [] /\ tones w = [];
  steady_progress : gameState (ui w) = playing ->
                    exists e, In e (timers w) /\ leads_to_waiting (snd e) = true
}.

(** In a round, the current note is one of the selected difficulty's set. *)
Definition target_in_set (w : World) : Prop :=
  gameState (ui w) <> idle ->
  exists n, currentNote (ui w) = Some n /\ In n (getAvailableNotes (ui w)).

(** [Piano]: the horizontal slot of the [i]-th white key and of the [i]-th
    black key, in key widths; the position is the slot times 0.6.  Slots
    are halves of integers, which the arithmetic of the source keeps exact. *)
Definition white_key_slot (i : nat) : Q :=
  (inject_Z (Z.of_nat i) - inject_Z (Z.of_nat (length WHITE_KEYS)) / 2 + (5 # 10))%Q.

Definition black_key_slot (i : nat) : option Q :=
  match nth_error blackKeyOffsets i with
  | Some offset =>
      Some (inject_Z (Z.of_nat offset)
            - inject_Z (Z.of_nat (length WHITE_KEYS)) / 2 + 1)%Q
  | None => None
  end.

(** The notes of the upper octave that [keyMap] has no key for. *)
Definition keys_without_shortcut : list string :=
  ["F5"; "F#5"; "G5"; "G#5"; "A5"; "A#5"; "B5"].

(** * Properties *)

(** ** Strings and draws *)

Lemma strict_eq_same (note : string) : strict_eq note (Some note) = true.
Proof. simpl. apply String.eqb_refl. Qed.

Lemma strict_eq_other (note target : string) :
  note <> target -> strict_eq note (Some target) = false.
Proof. intro H. simpl. now apply String.eqb_neq. Qed.






Lemma is_random_spec (rnd : Q) :
  is_random rnd = true <-> (0 <= rnd)%Q /\ (rnd < 1)%Q.
Proof.
  unfold is_random. rewrite andb_true_iff, negb_true_iff, Qle_bool_iff.
  split; intros [Hlo Hhi]; split; try exact Hlo.
  - apply Qnot_le_lt. intro H. apply Qle_bool_iff in H. congruence.
  - destruct (Qle_bool 1 rnd) eqn:E; [|reflexivity].
    apply Qle_bool_iff in E. now apply Qlt_not_le in Hhi.
Qed.

Lemma random_index_range (rnd : Q) (notes : list string) :
  (0 <= rnd)%Q -> (rnd < 1)%Q -> notes <> [] ->
  0 <= random_index rnd notes < Z.of_nat (length notes).
Proof.
  intros Hlo Hhi Hne. unfold random_index.
  set (len := Z.of_nat (length notes)).
  assert (Hlen : 0 < len)
    by (subst len; destruct notes; [now elim Hne | simpl; lia]).
  assert (HlenQ : (inject_Z 0 < inject_Z len)%Q) by (rewrite <- Zlt_Qlt; exact Hlen).
  change (inject_Z 0) with 0%Q in HlenQ.
  split.
  - change 0 with (Qfloor 0). apply Qfloor_resp_le.
    apply Qmult_le_0_compat; [exact Hlo | now apply Qlt_le_weak].
  - rewrite Zlt_Qlt.
    apply Qle_lt_trans with (y := (rnd * inject_Z len)%Q); [apply Qfloor_le|].
    rewrite <- (Qmult_1_l (inject_Z len)) at 2.
    now apply Qmult_lt_compat_r.
Qed.

Lemma array_get_in_range (notes : list string) (i : Z) :
  0 <= i < Z.of_nat (length notes) ->
  exists n, array_get notes i = Some n /\ In n notes.
Proof.
  intros [Hlo Hhi]. unfold array_get.
  destruct (Z.ltb_spec i 0) as [Hneg|_]; [lia|].
  destruct (nth_error notes (Z.to_nat i)) as [n|] eqn:E.
  - exists n. split; [reflexivity | eapply nth_error_In; exact E].
  - apply nth_error_None in E. lia.
Qed.

Lemma getAvailableNotes_nonempty (render : State) : getAvailableNotes render <> [].
Proof. unfold getAvailableNotes. destruct (difficulty render); discriminate. Qed.

(** The sets the three difficulties draw from. *)
Lemma getAvailableNotes_sets (render : State) :
  getAvailableNotes render
  = match difficulty render with
    | easy => ["C4"; "D4"; "E4"; "F4"; "G4"; "A4"; "B4"]
    | medium => WHITE_KEYS
    | hard => (WHITE_KEYS ++ BLACK_KEYS)%list
    end.
Proof. unfold getAvailableNotes. destruct (difficulty render); reflexivity. Qed.

(** A draw of [Math.random()] always lands on a note of the set. *)
Lemma draw_in_set (render : State) (rnd : Q) :
  (0 <= rnd)%Q -> (rnd < 1)%Q ->
  exists n,
    array_get (getAvailableNotes render)
              (random_index rnd (getAvailableNotes render)) = Some n
    /\ In n (getAvailableNotes render).
Proof.
  intros Hlo Hhi. apply array_get_in_range.
  apply random_index_range; auto using getAvailableNotes_nonempty.
Qed.

(** ** The world after each closure *)

Lemma exec_cons (c : Cmd) (cmds : list Cmd) (w : World) :
  exec (c :: cmds) w = exec cmds (exec1 c w).
Proof. reflexivity. Qed.

Lemma startGame_world (render : State) (rnd : Q) (w : World) :
  let target := array_get (getAvailableNotes render)
                          (random_index rnd (getAvailableNotes render)) in
  exec (startGame render rnd) w
  = mkWorld (mkState (score (ui w)) (streak (ui w)) playing target
                     (pressedKey (ui w)) None None None "" (difficulty (ui w)))
            (now w)
            (schedule (now w + 300, PlayThenWait target) (timers w))
            (tones w).
Proof. reflexivity. Qed.

(** An accepted guess that equals the target, for the handler of any
    render [r] acting on any world. *)
Lemma handleKeyPress_hit (r : State) (note : string) (w : World) :
  gameState r = waiting ->
  currentNote r = Some note ->
  exec (handleKeyPress r note) w
  = mkWorld (mkState (score (ui w) + 10 * (streak r + 1)) (streak (ui w) + 1)
                     (gameState (ui w)) (currentNote (ui w)) (Some note) (Some note)
                     (wrongKey (ui w)) (targetKey (ui w)) "✓ PERFECT!"
                     (difficulty (ui w)))
            (now w)
            (schedule (now w + 1200, AfterCorrect r)
                      (schedule (now w + 200, ClearPressed) (timers w)))
            (tones w ++ [NOTES note]).
Proof.
  intros Hgs Hcur. unfold handleKeyPress.
  rewrite Hgs, Hcur, strict_eq_same. reflexivity.
Qed.

(** An accepted guess that differs from the target. *)
Lemma handleKeyPress_miss (r : State) (note : string) (w : World) :
  gameState r = waiting ->
  strict_eq note (currentNote r) = false ->
  exec (handleKeyPress r note) w
  = mkWorld (mkState (score (ui w)) 0 (gameState (ui w)) (currentNote (ui w))
                     (Some note) (correctKey (ui w)) (Some note) (currentNote r)
                     ("✗ It was " ++ interpolate (currentNote r))
                     (difficulty (ui w)))
            (now w)
            (schedule (now w + 2000, AfterWrong r)
                      (schedule (now w + 200, ClearPressed) (timers w)))
            (tones w ++ [NOTES note]).
Proof.
  intros Hgs Hne. unfold handleKeyPress.
  rewrite Hgs, Hne. reflexivity.
Qed.

(** A guess outside the waiting state. *)
Lemma handleKeyPress_idle (r : State) (note : string) (w : World) :
  gameState r <> waiting ->
  exec (handleKeyPress r note) w = w.
Proof.
  intro Hgs. unfold handleKeyPress.
  destruct (gameState r); try reflexivity. now elim Hgs.
Qed.

(** ** Guesses *)

(** C1. A correct guess in the waiting state: with streak [s] before the
    guess, the score grows by exactly [10 * (s + 1)] and the streak
    becomes [s + 1]. *)
Theorem correct_guess_scoring (w : World) (note : string) (s : Z) :
  gameState (ui w) = waiting ->
  currentNote (ui w) = Some note ->
  streak (ui w) = s ->
  score (ui (pressKey note w)) = score (ui w) + 10 * (s + 1)
  /\ streak (ui (pressKey note w)) = s + 1.
Proof.
  intros Hgs Hcur Hs. unfold pressKey, dispatch.
  rewrite (handleKeyPress_hit _ _ _ Hgs Hcur). cbn [ui score streak].
  subst s. split; reflexivity.
Qed.


(** C3. Outside the waiting state a guess does nothing at all: the whole
    world (state cells, pending timers, tone requests) is unchanged. *)
Theorem guess_ignored_unless_waiting (w : World) (note : string) :
  gameState (ui w) <> waiting ->
  pressKey note w = w.
Proof.
  intro Hgs. unfold pressKey, dispatch. now apply handleKeyPress_idle.
Qed.

(** The keyboard path has the same guard once more. *)
Lemma keydown_ignored_unless_waiting (w : World) (key : string) :
  gameState (ui w) <> waiting ->
  dispatch (fun r => handleKeyDown r key) w = w.
Proof.
  intro Hgs. unfold dispatch, handleKeyDown.
  destruct (keyMap key); [|reflexivity].
  destruct (GameState_eqb _ _); [|reflexivity].
  now apply handleKeyPress_idle.
Qed.

(** ** Starting a round *)

(** C6. Every execution of [startGame], under any difficulty, draws a
    target from that difficulty's note set (easy: the seven white keys
    of the first octave, medium: all white keys, hard: all white and
    black keys), stores it as the current note and clears the correct,
    wrong and target highlights and the feedback text. *)
Theorem startGame_draws_from_difficulty (render : State) (rnd : Q) (w : World) :
  (0 <= rnd)%Q -> (rnd < 1)%Q ->
  let w' := exec (startGame render rnd) w in
  (exists n,
      currentNote (ui w') = Some n
      /\ In n (getAvailableNotes render)
      /\ In n (match difficulty render with
               | easy => ["C4"; "D4"; "E4"; "F4"; "G4"; "A4"; "B4"]
               | medium => WHITE_KEYS
               | hard => (WHITE_KEYS ++ BLACK_KEYS)%list
               end))
  /\ gameState (ui w') = playing
  /\ correctKey (ui w') = None
  /\ wrongKey (ui w') = None
  /\ targetKey (ui w') = None
  /\ feedback (ui w') = "".
Proof.
  intros Hlo Hhi w'. subst w'. rewrite startGame_world.
  cbn [ui currentNote gameState correctKey wrongKey targetKey feedback].
  split; [|repeat split].
  destruct (draw_in_set render rnd Hlo Hhi) as [n [Hn Hin]].
  exists n. split; [exact Hn | split; [exact Hin|]].
  rewrite <- getAvailableNotes_sets. exact Hin.
Qed.

(** ** Difficulty *)

(** C10. Changing the difficulty touches the difficulty cell only:
    score, streak, game state, current note, highlights and feedback
    keep their values (so a round in flight keeps its target), and no
    timer or tone request is added. *)
Theorem changeDifficulty_frame (d : Difficulty) (w : World) :
  changeDifficulty d w
  = mkWorld (mkState (score (ui w)) (streak (ui w)) (gameState (ui w))
                     (currentNote (ui w)) (pressedKey (ui w)) (correctKey (ui w))
                     (wrongKey (ui w)) (targetKey (ui w)) (feedback (ui w)) d)
            (now w) (timers w) (tones w).
Proof. reflexivity. Qed.

(** A cell keeps its value under commands that do not set it. *)
Section Frame.

Context {A : Type}.
Variable cell : State -> A.
Variable sets : Cmd -> bool.
Hypothesis sets_sound :
  forall c s, sets c = false -> cell (apply_setter c s) = cell s.

Lemma exec1_frame (c : Cmd) (w : World) :
  sets c = false -> cell (ui (exec1 c w)) = cell (ui w).
Proof.
  intro H. destruct c; cbn [exec1 ui]; try (apply sets_sound; exact H);
    reflexivity.
Qed.

Lemma exec_frame (cmds : list Cmd) (w : World) :
  forallb (fun c => negb (sets c)) cmds = true ->
  cell (ui (exec cmds w)) = cell (ui w).
Proof.
  revert w. induction cmds as [|c cmds IH]; intros w H; [reflexivity|].
  cbn [forallb] in H. apply andb_true_iff in H as [Hc Hrest].
  rewrite exec_cons, (IH _ Hrest). apply exec1_frame. now apply negb_true_iff.
Qed.

End Frame.

Lemma sets_difficulty_sound (c : Cmd) (s : State) :
  sets_difficulty c = false -> difficulty (apply_setter c s) = difficulty s.
Proof. destruct c; simpl; congruence. Qed.

Lemma handleKeyPress_keeps_difficulty (r : State) (note : string) :
  forallb (fun c => negb (sets_difficulty c)) (handleKeyPress r note) = true.
Proof.
  unfold handleKeyPress.
  destruct (gameState r); try reflexivity.
  destruct (strict_eq note (currentNote r)); reflexivity.
Qed.

Lemma task_body_keeps_difficulty (t : Task) (rnd : Q) :
  forallb (fun c => negb (sets_difficulty c)) (task_body t rnd) = true.
Proof. destruct t; reflexivity. Qed.

(** Along a run the difficulty changes only by a click on a difficulty
    button, and that button exists only in the idle state. *)
Lemma step_difficulty (ev : Event) (w w' : World) :
  step ev w = Some w' ->
  difficulty (ui w') <> difficulty (ui w) ->
  gameState (ui w) = idle /\ exists t d, ev = ChangeDifficulty t d.
Proof.
  intros Hstep Hchg.
  assert (Hkeep : forall cmds v,
             forallb (fun c => negb (sets_difficulty c)) cmds = true ->
             ui v = ui w -> w' = exec cmds v -> False).
  { intros cmds v Hc Hv ->. apply Hchg.
    rewrite (exec_frame difficulty sets_difficulty sets_difficulty_sound _ _ Hc).
    now rewrite Hv. }
  destruct ev as [t rnd|t d|t|t note|t key|rnd]; cbn [step] in Hstep.
  - destruct (_ && _); [|discriminate]. injection Hstep as <-.
    exfalso. eapply (Hkeep (startGame (ui w) rnd) (at_time t w)); reflexivity.
  - destruct (now w <=? t); [|discriminate].
    destruct (gameState (ui w)) eqn:G; try discriminate.
    split; [reflexivity | now exists t, d].
  - destruct (_ && _); [|discriminate]. injection Hstep as <-.
    exfalso. eapply (Hkeep (playCurrentNote (ui w)) (at_time t w)); try reflexivity.
    unfold playCurrentNote. now destruct (currentNote (ui w)).
  - destruct (_ && _); [|discriminate]. injection Hstep as <-.
    exfalso. eapply (Hkeep (handleKeyPress (ui w) note) (at_time t w)); try reflexivity.
    apply handleKeyPress_keeps_difficulty.
  - destruct (now w <=? t); [|discriminate]. injection Hstep as <-.
    exfalso. eapply (Hkeep (handleKeyDown (ui w) key) (at_time t w)); try reflexivity.
    unfold handleKeyDown. destruct (keyMap key); [|reflexivity].
    destruct (GameState_eqb _ _); [|reflexivity].
    apply handleKeyPress_keeps_difficulty.
  - destruct (timers w) as [|[due task] rest]; [discriminate|].
    destruct (is_random rnd); [|discriminate]. injection Hstep as <-.
    exfalso.
    eapply (Hkeep (task_body task rnd)
                  (mkWorld (ui w) (Z.max (now w) due) rest (tones w)));
      try reflexivity.
    apply task_body_keeps_difficulty.
Qed.

(** C7, as the code has it.  The setter handed to the interface has no
    guard: called in any game state it sets the difficulty.  What keeps
    the difficulty fixed during a round is the interface alone, which
    offers the difficulty buttons in the idle state only; so along a run
    the difficulty changes only by such a click, made in the idle state. *)
Theorem difficulty_guarded_by_interface_only :
  (forall d w, difficulty (ui (changeDifficulty d w)) = d)
  /\ (forall ev w w',
         step ev w = Some w' ->
         difficulty (ui w') <> difficulty (ui w) ->
         gameState (ui w) = idle /\ exists t d, ev = ChangeDifficulty t d).
Proof.
  split.
  - reflexivity.
  - exact step_difficulty.
Qed.

(** ** More than one guess in a round *)

Lemma handleKeyPress_keeps_round (r : State) (note : string) (w : World) :
  gameState (ui (exec (handleKeyPress r note) w)) = gameState (ui w)
  /\ currentNote (ui (exec (handleKeyPress r note) w)) = currentNote (ui w).
Proof.
  unfold handleKeyPress.
  destruct (gameState r); try (split; reflexivity).
  destruct (strict_eq note (currentNote r)); split; reflexivity.
Qed.


(** ** Notes outside the catalog *)

(** A handler whose tone requests all carry a frequency runs to its end. *)
Lemma handle_returns (cmds : list Cmd) (w : World) :
  forallb (fun c => match c with playNote f => playNote_returns f | _ => true end)
          cmds = true ->
  handle cmds w = Returned (exec cmds w).
Proof.
  revert w. induction cmds as [|c cmds IH]; intros w H; [reflexivity|].
  cbn [forallb] in H. apply andb_true_iff in H as [Hc Hrest].
  rewrite exec_cons.
  destruct c; cbn [handle]; try (apply IH; exact Hrest).
  rewrite Hc. apply IH; exact Hrest.
Qed.

(** A guess by a note of the catalog never raises: the handler does what
    [pressKey] says. *)
Lemma known_note_returns (w : World) (note : string) (f : Q) :
  NOTES note = Some f ->
  handle (handleKeyPress (ui w) note) w = Returned (pressKey note w).
Proof.
  intro Hnote. apply handle_returns. unfold handleKeyPress.
  destruct (gameState (ui w)); try reflexivity.
  destruct (strict_eq note (currentNote (ui w)));
    cbn [app forallb]; now rewrite Hnote.
Qed.

(** In the waiting state [handleKeyPress] begins by marking the key and
    asking for its tone, whatever the guess is. *)
Lemma handleKeyPress_begins (r : State) (note : string) :
  gameState r = waiting ->
  exists rest,
    handleKeyPress r note
    = setPressedKey (Some note) :: playNote (NOTES note) :: rest.
Proof.
  intro Hgs. unfold handleKeyPress. rewrite Hgs. eexists. reflexivity.
Qed.

(** C5. A guess, in the waiting state, by a note id that the catalog does
    not have fails: [handleKeyPress] marks the key as pressed and asks
    [playNote] for the note's frequency, which there is none of, and the
    exception raised on it leaves the handler and reaches its caller.
    Score and streak are not mutated; neither is any highlight or the
    feedback, and no timer is scheduled. *)
Theorem unknown_note_raises (w : World) (note : string) :
  NOTES note = None ->
  gameState (ui w) = waiting ->
  exists w',
    handle (handleKeyPress (ui w) note) w = Threw w'
    /\ score (ui w') = score (ui w)
    /\ streak (ui w') = streak (ui w)
    /\ w' = mkWorld (mkState (score (ui w)) (streak (ui w)) (gameState (ui w))
                             (currentNote (ui w)) (Some note) (correctKey (ui w))
                             (wrongKey (ui w)) (targetKey (ui w)) (feedback (ui w))
                             (difficulty (ui w)))
                    (now w) (timers w) (tones w ++ [None]).
Proof.
  intros Hnote Hgs.
  exists (mkWorld (mkState (score (ui w)) (streak (ui w)) (gameState (ui w))
                           (currentNote (ui w)) (Some note) (correctKey (ui w))
                           (wrongKey (ui w)) (targetKey (ui w)) (feedback (ui w))
                           (difficulty (ui w)))
                  (now w) (timers w) (tones w ++ [None])).
  destruct (handleKeyPress_begins (ui w) note Hgs) as [rest ->].
  rewrite Hnote. repeat split.
Qed.

(** ** Timers of an earlier round *)

(** C8, as the code has it.  A scheduled callback carries no mark of the
    round that scheduled it and is never discarded: whenever a pending
    callback of a resolved guess fires, in whatever state the game then
    is, it clears the highlights and runs [startGame], which draws a new
    target, sets the state to playing and empties the feedback. *)
Theorem resolution_timer_always_restarts
  (w : World) (due : Z) (task : Task) (render : State) (rest : TimerQueue) (rnd : Q) :
  timers w = (due, task) :: rest ->
  task = AfterCorrect render \/ task = AfterWrong render ->
  (0 <= rnd)%Q -> (rnd < 1)%Q ->
  exists w',
    step (Fire rnd) w = Some w'
    /\ (exists n, currentNote (ui w') = Some n /\ In n (getAvailableNotes render))
    /\ gameState (ui w') = playing
    /\ correctKey (ui w') = None
    /\ wrongKey (ui w') = None
    /\ targetKey (ui w') = None
    /\ feedback (ui w') = "".
Proof.
  intros Htimers Htask Hlo Hhi.
  assert (Hrnd : is_random rnd = true) by (apply is_random_spec; now split).
  destruct (draw_in_set render rnd Hlo Hhi) as [n [Hn Hin]].
  eexists. cbn [step]. rewrite Htimers, Hrnd. split; [reflexivity|].
  destruct Htask as [-> | ->]; cbn [task_body];
    [rewrite exec_cons | rewrite 2 exec_cons];
    rewrite startGame_world;
    cbn [ui currentNote gameState correctKey wrongKey targetKey feedback];
    (split; [exists n; split; [exact Hn | exact Hin] | repeat split]).
Qed.

(** ** The target highlight *)

Lemma startGame_hides_target (render : State) (rnd : Q) (w : World) :
  targetKey (ui (exec (startGame render rnd) w)) = None.
Proof. now rewrite startGame_world. Qed.

(** A key press leaves the target highlight alone unless it is an
    accepted guess that differs from the target. *)
Lemma handleKeyPress_targetKey (r : State) (note : string) (w : World) :
  (gameState r = waiting /\ strict_eq note (currentNote r) = false)
  \/ targetKey (ui (exec (handleKeyPress r note) w)) = targetKey (ui w).
Proof.
  unfold handleKeyPress.
  destruct (gameState r); try (right; reflexivity).
  destruct (strict_eq note (currentNote r)); [right; reflexivity | left; now split].
Qed.

(** One event keeps the invariant: no incorrect guess in the current
    round, no target highlight. *)
Lemma step_target_hidden (ev : Event) (w w' : World) (missed : bool) :
  (missed = false -> targetKey (ui w) = None) ->
  step ev w = Some w' ->
  (if starts_round ev w then false else missed || wrong_guess ev w) = false ->
  targetKey (ui w') = None.
Proof.
  intros Hinv Hstep Hflag.
  destruct ev as [t rnd|t d|t|t note|t key|rnd];
    cbn [step starts_round wrong_guess] in Hstep, Hflag.
  - destruct (_ && _); [|discriminate]. injection Hstep as <-.
    apply startGame_hides_target.
  - destruct (_ && _); [|discriminate]. injection Hstep as <-.
    apply orb_false_iff in Hflag as [-> _]. now apply Hinv.
  - destruct (_ && _); [|discriminate]. injection Hstep as <-.
    apply orb_false_iff in Hflag as [-> _].
    unfold dispatch, playCurrentNote. cbn [at_time ui].
    destruct (currentNote (ui w)); now apply Hinv.
  - destruct (_ && _); [|discriminate]. injection Hstep as <-.
    apply orb_false_iff in Hflag as [-> Hguess].
    unfold dispatch. cbn [at_time ui].
    destruct (handleKeyPress_targetKey (ui w) note (at_time t w)) as [[Hgs Hcmp]|Hsame].
    + rewrite Hgs, Hcmp in Hguess. discriminate.
    + rewrite Hsame. now apply Hinv.
  - destruct (now w <=? t); [|discriminate]. injection Hstep as <-.
    apply orb_false_iff in Hflag as [-> Hguess].
    unfold dispatch, handleKeyDown. cbn [at_time ui].
    destruct (keyMap key) as [note|]; [|now apply Hinv].
    destruct (GameState_eqb (gameState (ui w)) waiting) eqn:Hgs; [|now apply Hinv].
    destruct (handleKeyPress_targetKey (ui w) note (at_time t w)) as [[_ Hcmp]|Hsame].
    + rewrite Hcmp in Hguess. discriminate.
    + rewrite Hsame. now apply Hinv.
  - destruct (timers w) as [|[due task] rest]; [discriminate|].
    destruct (is_random rnd); [|discriminate]. injection Hstep as <-.
    destruct task as [|r|r|n|]; cbn [task_body].
    + apply orb_false_iff in Hflag as [-> _]. now apply Hinv.
    + rewrite exec_cons. apply startGame_hides_target.
    + rewrite 2 exec_cons. apply startGame_hides_target.
    + apply orb_false_iff in Hflag as [-> _]. now apply Hinv.
    + apply orb_false_iff in Hflag as [-> _]. now apply Hinv.
Qed.

Lemma run_rounds_target_hidden (evs : list Event) :
  forall (w w' : World) (missed : bool),
    (missed = false -> targetKey (ui w) = None) ->
    run_rounds evs w missed = Some (w', false) ->
    targetKey (ui w') = None.
Proof.
  induction evs as [|ev evs IH]; intros w w' missed Hinv Hrun.
  - injection Hrun as <- ->. now apply Hinv.
  - cbn [run_rounds] in Hrun.
    destruct (step ev w) as [w1|] eqn:Hstep; [|discriminate].
    eapply IH; [|exact Hrun].
    intro Hflag. eapply step_target_hidden; eauto.
Qed.

(** C9. In every world reached from the initial one in which the current
    round has seen no incorrect guess, the target highlight is empty. *)
Theorem target_hidden_until_missed (evs : list Event) (w : World) :
  run_rounds evs initial false = Some (w, false) ->
  targetKey (ui w) = None.
Proof.
  intro Hrun. eapply run_rounds_target_hidden; [|exact Hrun]. reflexivity.
Qed.

(** [run_rounds] follows [run]: every run has its round record. *)
Lemma run_rounds_run (evs : list Event) :
  forall (w : World) (missed : bool),
    option_map fst (run_rounds evs w missed) = run evs w.
Proof.
  induction evs as [|ev evs IH]; intros w missed; [reflexivity|].
  cbn [run_rounds run]. destruct (step ev w); [apply IH | reflexivity].
Qed.

(** ** Reachable worlds *)

Lemma Forall_schedule (P : Z * Task -> Prop) (e : Z * Task) (q : TimerQueue) :
  P e -> Forall P q -> Forall P (schedule e q).
Proof.
  intros He Hq. induction Hq as [|x q Hx Hq IH]; cbn [schedule].
  - now constructor.
  - destruct (fst e <? fst x); repeat constructor; assumption.
Qed.

Lemma clicked_key_on_piano (note : string) :
  existsb (String.eqb note) piano_keys = true -> In note piano_keys.
Proof.
  intro H. apply existsb_exists in H as [k [Hin Heq]].
  apply String.eqb_eq in Heq. now subst k.
Qed.

Lemma piano_key_has_frequency (n : string) : In n piano_keys -> NOTES n <> None.
Proof.
  intro H. cbv [piano_keys WHITE_KEYS BLACK_KEYS app] in H.
  repeat (destruct H as [<-|H]; [discriminate|]). contradiction.
Qed.

Lemma keyMap_piano_key (key note : string) :
  keyMap key = Some note -> In note piano_keys.
Proof.
  unfold keyMap, keyMap_table. cbn [lookup].
  repeat (destruct (String.eqb key _);
          [intro H; injection H as <-; apply clicked_key_on_piano; reflexivity|]).
  discriminate.
Qed.

Lemma getAvailableNotes_piano (render : State) (n : string) :
  In n (getAvailableNotes render) -> In n piano_keys.
Proof.
  unfold getAvailableNotes.
  destruct (difficulty render); intro H.
  - cbv [firstn WHITE_KEYS] in H.
    repeat (destruct H as [<-|H]; [apply clicked_key_on_piano; reflexivity|]).
    contradiction.
  - apply in_or_app. now left.
  - exact H.
Qed.

Lemma Sound_at_time (t : Z) (w : World) : Sound w -> Sound (at_time t w).
Proof. intros [Hidle Hnote Htimers Htones]. now constructor. Qed.

(** A key press keeps a world sound. *)
Lemma handleKeyPress_sound (note : string) (w : World) :
  In note piano_keys -> Sound w -> Sound (pressKey note w).
Proof.
  intros Hkey [Hidle Hnote Htimers Htones]. unfold pressKey, dispatch.
  assert (Hcase : gameState (ui w) = waiting \/ gameState (ui w) <> waiting)
    by (destruct (gameState (ui w)); auto; right; discriminate).
  destruct Hcase as [Hgs|Hgs];
    [|rewrite handleKeyPress_idle by exact Hgs; now constructor].
  destruct (strict_eq note (currentNote (ui w))) eqn:Hcmp.
  - assert (Hcur : currentNote (ui w) = Some note).
    { destruct (currentNote (ui w)) as [c|]; [|discriminate].
      apply String.eqb_eq in Hcmp. now subst c. }
    rewrite (handleKeyPress_hit _ _ _ Hgs Hcur).
    constructor; cbn [ui timers tones gameState currentNote difficulty].
    + rewrite Hgs. discriminate.
    + exact Hnote.
    + repeat apply Forall_schedule; cbn [snd task_sound]; auto.
    + apply Forall_app. split; [exact Htones|].
      repeat constructor. now apply piano_key_has_frequency.
  - rewrite (handleKeyPress_miss _ _ _ Hgs Hcmp).
    constructor; cbn [ui timers tones gameState currentNote difficulty].
    + rewrite Hgs. discriminate.
    + exact Hnote.
    + repeat apply Forall_schedule; cbn [snd task_sound]; auto.
    + apply Forall_app. split; [exact Htones|].
      repeat constructor. now apply piano_key_has_frequency.
Qed.

(** [startGame] of the selected difficulty keeps a world sound, provided
    the timers pending in it are. *)
Lemma startGame_sound (render : State) (rnd : Q) (w : World) :
  is_random rnd = true ->
  Forall (fun e => task_sound (difficulty (ui w)) (snd e)) (timers w) ->
  Forall (fun f => f <> None) (tones w) ->
  Sound (exec (startGame render rnd) w).
Proof.
  intros Hrnd Htimers Htones. apply is_random_spec in Hrnd as [Hlo Hhi].
  destruct (draw_in_set render rnd Hlo Hhi) as [n [Hn Hin]].
  rewrite startGame_world. cbv zeta. rewrite Hn.
  constructor; cbn [ui timers tones gameState currentNote difficulty].
  - discriminate.
  - intros m Hm. injection Hm as <-. eapply getAvailableNotes_piano; eauto.
  - apply Forall_schedule; [|exact Htimers]. cbn [snd task_sound].
    exists n. split; [reflexivity | eapply getAvailableNotes_piano; eauto].
  - exact Htones.
Qed.

Lemma step_sound (ev : Event) (w w' : World) :
  Sound w -> step ev w = Some w' -> Sound w'.
Proof.
  intros HS Hstep.
  destruct ev as [t rnd|t d|t|t note|t key|rnd]; cbn [step] in Hstep.
  - destruct (now w <=? t); [|discriminate].
    destruct (GameState_eqb (gameState (ui w)) idle); [|discriminate].
    destruct (is_random rnd) eqn:Hrnd; [|discriminate].
    injection Hstep as <-. destruct HS as [_ _ Htimers Htones].
    now apply startGame_sound.
  - destruct (now w <=? t); [|discriminate].
    destruct (gameState (ui w)) eqn:Hgs; try discriminate.
    injection Hstep as <-. destruct HS as [Hidle Hnote _ Htones].
    unfold dispatch. cbn [exec fold_left exec1 apply_setter at_time ui].
    constructor; cbn [ui timers tones gameState currentNote difficulty at_time].
    + intros _. now apply Hidle.
    + exact Hnote.
    + rewrite (Hidle Hgs). constructor.
    + exact Htones.
  - destruct (_ && _); [|discriminate]. injection Hstep as <-.
    unfold dispatch, playCurrentNote. cbn [at_time ui].
    destruct (currentNote (ui w)) as [n|] eqn:Hcur;
      [|now apply Sound_at_time].
    destruct HS as [Hidle Hnote Htimers Htones].
    constructor; cbn [exec fold_left exec1 ui timers tones]; auto.
    apply Forall_app. split; [exact Htones|].
    repeat constructor. apply piano_key_has_frequency. now apply Hnote.
  - destruct (now w <=? t); [|discriminate].
    destruct (existsb _ _) eqn:Hkey; [|discriminate]. injection Hstep as <-.
    apply (handleKeyPress_sound note (at_time t w));
      [now apply clicked_key_on_piano | now apply Sound_at_time].
  - destruct (now w <=? t); [|discriminate]. injection Hstep as <-.
    unfold dispatch, handleKeyDown. cbn [at_time ui].
    destruct (keyMap key) as [note|] eqn:Hmap;
      [|now apply Sound_at_time].
    destruct (GameState_eqb _ _); [|now apply Sound_at_time].
    apply (handleKeyPress_sound note (at_time t w));
      [eapply keyMap_piano_key; eauto | now apply Sound_at_time].
  - destruct (timers w) as [|[due task] rest] eqn:Hq; [discriminate|].
    destruct (is_random rnd) eqn:Hrnd; [|discriminate]. injection Hstep as <-.
    destruct HS as [Hidle Hnote Htimers Htones]. rewrite Hq in Htimers.
    apply Forall_cons_iff in Htimers as [Htask Hrest]. cbn [snd] in Htask.
    assert (Hbusy : gameState (ui w) <> idle)
      by (intro Hgs; rewrite (Hidle Hgs) in Hq; discriminate).
    destruct task as [|r|r|o|]; cbn [task_body].
    + constructor; cbn [exec fold_left exec1 apply_setter ui timers tones
                        gameState currentNote difficulty]; auto.
      intro Hgs. now elim Hbusy.
    + rewrite exec_cons. now apply startGame_sound.
    + rewrite 2 exec_cons. now apply startGame_sound.
    + destruct Htask as [n [-> Hn]].
      constructor; cbn [exec fold_left exec1 apply_setter ui timers tones
                        gameState currentNote difficulty NOTES_opt]; auto.
      * intro Hgs. now elim Hbusy.
      * apply Forall_schedule; [exact I | exact Hrest].
      * apply Forall_app. split; [exact Htones|].
        repeat constructor. now apply piano_key_has_frequency.
    + constructor; cbn [exec fold_left exec1 apply_setter ui timers tones
                        gameState currentNote difficulty]; auto.
      discriminate.
Qed.

Lemma initial_sound : Sound initial.
Proof. constructor; cbn; try constructor; discriminate. Qed.

Lemma run_sound (evs : list Event) :
  forall w w', Sound w -> run evs w = Some w' -> Sound w'.
Proof.
  induction evs as [|ev evs IH]; intros w w' HS Hrun; cbn [run] in Hrun.
  - now injection Hrun as <-.
  - destruct (step ev w) as [w1|] eqn:Hstep; [|discriminate].
    eapply IH; [|exact Hrun]. eapply step_sound; eauto.
Qed.

(** X23. A restart pending in a reachable world draws from the set of
    the difficulty selected in that world: the [startGame] a callback
    closed over is never out of date. *)
Lemma pending_restart_uses_selected_difficulty
  (evs : list Event) (w : World) (due : Z) (render : State) :
  run evs initial = Some w ->
  In (due, AfterCorrect render) (timers w) \/ In (due, AfterWrong render) (timers w) ->
  getAvailableNotes render = getAvailableNotes (ui w).
Proof.
  intros Hrun Hin.
  destruct (run_sound evs initial w initial_sound Hrun) as [_ _ Htimers _].
  rewrite Forall_forall in Htimers. unfold getAvailableNotes.
  destruct Hin as [Hin|Hin]; apply Htimers in Hin; cbn [snd task_sound] in Hin;
    now rewrite Hin.
Qed.

(** X22. No run of clicks, timer callbacks and keydowns of keys other
    than the names every object inherits ever asks [playNote] for a note
    without a frequency: the piano keys, the entries of the key map and
    the note sets only name catalog entries, so [playNote] never raises
    on such a run. *)
Lemma tones_of_a_run_defined (evs : list Event) (w : World) :
  forallb ordinary evs = true ->
  run evs initial = Some w ->
  Forall (fun f => playNote_returns f = true) (tones w).
Proof.
  intros _ Hrun.
  destruct (run_sound evs initial w initial_sound Hrun) as [_ _ _ Htones].
  eapply Forall_impl; [|exact Htones].
  intros [f|] Hf; [reflexivity | now elim Hf].
Qed.

(** ** Worked inputs *)

Example first_round_run : run first_round initial = Some waiting_C4.
Proof. reflexivity. Qed.

Example two_hits_run : run two_hits initial = Some third_round.
Proof. reflexivity. Qed.

Example miss_pending_run :
  run (first_round ++ [ClickKey 1000 "D4"; Fire 0]) initial = Some miss_pending.
Proof. reflexivity. Qed.

Lemma correct_guess_scoring_witness :
  score (ui (pressKey "C4" third_round)) = 30 + 10 * (2 + 1)
  /\ streak (ui (pressKey "C4" third_round)) = 2 + 1.
Proof.
  apply (correct_guess_scoring third_round "C4" 2); reflexivity.
Defined.


Lemma guess_ignored_unless_waiting_witness :
  pressKey "C4" initial = initial.
Proof.
  apply (guess_ignored_unless_waiting initial "C4"). discriminate.
Defined.

Lemma startGame_draws_from_difficulty_witness :
  let w' := exec (startGame initial_state (1 # 2)) initial in
  (exists n,
      currentNote (ui w') = Some n
      /\ In n (getAvailableNotes initial_state)
      /\ In n WHITE_KEYS)
  /\ gameState (ui w') = playing
  /\ correctKey (ui w') = None
  /\ wrongKey (ui w') = None
  /\ targetKey (ui w') = None
  /\ feedback (ui w') = "".
Proof.
  apply (startGame_draws_from_difficulty initial_state (1 # 2) initial);
    [discriminate | reflexivity].
Defined.

Lemma target_hidden_until_missed_witness :
  targetKey (ui third_round) = None.
Proof.
  apply (target_hidden_until_missed two_hits third_round). reflexivity.
Defined.



Lemma unknown_note_raises_witness :
  exists w',
    handle (handleKeyPress (ui third_round) "X9") third_round = Threw w'
    /\ score (ui w') = score (ui third_round)
    /\ streak (ui w') = streak (ui third_round)
    /\ w' = mkWorld (mkState (score (ui third_round)) (streak (ui third_round))
                             (gameState (ui third_round))
                             (currentNote (ui third_round)) (Some "X9")
                             (correctKey (ui third_round))
                             (wrongKey (ui third_round)) (targetKey (ui third_round))
                             (feedback (ui third_round))
                             (difficulty (ui third_round)))
                    (now third_round) (timers third_round)
                    (tones third_round ++ [None]).
Proof. exact (unknown_note_raises third_round "X9" eq_refl eq_refl). Defined.

(** The same guess at work: a streak of 2 and a score of 30 survive it. *)
Example unknown_note_at_work :
  handle (handleKeyPress (ui third_round) "X9") third_round
  = Threw (mkWorld (mkState 30 2 waiting (Some "C4") (Some "X9") None None None "" medium)
                   5000 [] (tones third_round ++ [None])).
Proof. reflexivity. Qed.

(** C7 fails as stated: in the waiting state of the first round the
    setter changes the difficulty from medium to hard. *)
Lemma difficulty_changed_while_waiting :
  run first_round initial = Some waiting_C4
  /\ gameState (ui waiting_C4) = waiting
  /\ difficulty (ui waiting_C4) = medium
  /\ difficulty (ui (changeDifficulty hard waiting_C4)) = hard
  /\ difficulty (ui (changeDifficulty hard waiting_C4)) <> difficulty (ui waiting_C4)
  /\ changeDifficulty hard waiting_C4 <> waiting_C4.
Proof. repeat split; try reflexivity; discriminate. Qed.

Lemma difficulty_guarded_by_interface_only_witness :
  difficulty (ui (changeDifficulty hard waiting_C4)) = hard
  /\ gameState (ui initial) = idle
  /\ exists t d, ChangeDifficulty 0 easy = ChangeDifficulty t d.
Proof.
  destruct difficulty_guarded_by_interface_only as [Hset Hgate].
  split; [apply Hset|].
  apply (Hgate (ChangeDifficulty 0 easy) initial (changeDifficulty easy initial));
    [reflexivity | discriminate].
Defined.

(** C8 fails as stated.  After [two_misses] two restart callbacks are
    pending, due at 3000 and at 4500.  The first starts round two (target
    C5).  Round two reaches the waiting state and G4 is guessed, which
    reveals C5.  Then the callback due at 4500, scheduled in round one,
    fires: it clears the wrong and target highlights of round two and
    replaces its target. *)
Lemma stale_timer_restarts_new_round :
  run two_misses initial = Some round_one_missed
  /\ currentNote (ui round_one_missed) = Some "C4"
  /\ timers round_one_missed = [(3000, first_restart); (4500, stale_restart)]
  /\ starts_round (Fire (1 # 2)) round_one_missed = true
  /\ step (Fire (1 # 2)) round_one_missed = Some round_two_started
  /\ currentNote (ui round_two_started) = Some "C5"
  /\ run [Fire 0; Fire 0; ClickKey 4000 "G4"; Fire 0] round_two_started
     = Some round_two_missed
  /\ hd_error (timers round_two_missed) = Some (4500, stale_restart)
  /\ gameState (ui round_two_missed) = waiting
  /\ currentNote (ui round_two_missed) = Some "C5"
  /\ wrongKey (ui round_two_missed) = Some "G4"
  /\ targetKey (ui round_two_missed) = Some "C5"
  /\ feedback (ui round_two_missed) = "✗ It was C5"
  /\ step (Fire 0) round_two_missed = Some round_two_replaced
  /\ gameState (ui round_two_replaced) = playing
  /\ currentNote (ui round_two_replaced) = Some "C4"
  /\ wrongKey (ui round_two_replaced) = None
  /\ targetKey (ui round_two_replaced) = None
  /\ feedback (ui round_two_replaced) = ""
  /\ currentNote (ui round_two_replaced) <> currentNote (ui round_two_missed)
  /\ targetKey (ui round_two_replaced) <> targetKey (ui round_two_missed).
Proof.
  repeat split; try reflexivity; discriminate.
Qed.

Lemma resolution_timer_always_restarts_witness :
  exists w',
    step (Fire 0) miss_pending = Some w'
    /\ (exists n, currentNote (ui w') = Some n /\ In n WHITE_KEYS)
    /\ gameState (ui w') = playing
    /\ correctKey (ui w') = None
    /\ wrongKey (ui w') = None
    /\ targetKey (ui w') = None
    /\ feedback (ui w') = "".
Proof.
  apply (resolution_timer_always_restarts
           miss_pending 3000
           (AfterWrong (ui waiting_C4)) (ui waiting_C4) [] 0);
    [reflexivity | right; reflexivity | discriminate | reflexivity].
Defined.

(** * Further properties of the component *)

(** ** The shape of a step *)

Lemma GameState_eqb_eq (a b : GameState) : GameState_eqb a b = true <-> a = b.
Proof. destruct a, b; simpl; split; congruence. Qed.

(** The keyboard handler, seen through [pressKey]. *)
Lemma handleKeyDown_pressKey (key : string) (w : World) :
  dispatch (fun r => handleKeyDown r key) w
  = match keyMap key with
    | Some note => pressKey note w
    | None => w
    end.
Proof.
  unfold dispatch, handleKeyDown, pressKey, dispatch.
  destruct (keyMap key) as [note|]; [|reflexivity].
  destruct (GameState_eqb (gameState (ui w)) waiting) eqn:Hgs; [reflexivity|].
  symmetry. apply handleKeyPress_idle.
  intro H. apply GameState_eqb_eq in H. congruence.
Qed.

(** What each event does when it can happen. *)
Lemma step_shape (ev : Event) (w w' : World) :
  step ev w = Some w' ->
  match ev with
  | Begin t rnd =>
      gameState (ui w) = idle /\ is_random rnd = true /\ now w <= t
      /\ w' = exec (startGame (ui w) rnd) (at_time t w)
  | ChangeDifficulty t d =>
      gameState (ui w) = idle /\ now w <= t
      /\ w' = changeDifficulty d (at_time t w)
  | ReplayNote t =>
      gameState (ui w) = playing /\ now w <= t
      /\ w' = dispatch playCurrentNote (at_time t w)
  | ClickKey t note =>
      In note piano_keys /\ now w <= t /\ w' = pressKey note (at_time t w)
  | KeyDown t key =>
      now w <= t
      /\ w' = match keyMap key with
              | Some note => pressKey note (at_time t w)
              | None => at_time t w
              end
  | Fire rnd =>
      exists due task rest,
        timers w = (due, task) :: rest /\ is_random rnd = true
        /\ w' = exec (task_body task rnd)
                     (mkWorld (ui w) (Z.max (now w) due) rest (tones w))
  end.
Proof.
  intro Hstep.
  destruct ev as [t rnd|t d|t|t note|t key|rnd]; cbn [step] in Hstep.
  - destruct (Z.leb_spec (now w) t) as [Ht|]; [|discriminate].
    destruct (GameState_eqb (gameState (ui w)) idle) eqn:Hgs; [|discriminate].
    destruct (is_random rnd); [|discriminate].
    apply GameState_eqb_eq in Hgs. injection Hstep as <-. now repeat split.
  - destruct (Z.leb_spec (now w) t) as [Ht|]; [|discriminate].
    destruct (GameState_eqb (gameState (ui w)) idle) eqn:Hgs; [|discriminate].
    apply GameState_eqb_eq in Hgs. injection Hstep as <-. now repeat split.
  - destruct (Z.leb_spec (now w) t) as [Ht|]; [|discriminate].
    destruct (GameState_eqb (gameState (ui w)) playing) eqn:Hgs; [|discriminate].
    apply GameState_eqb_eq in Hgs. injection Hstep as <-. now repeat split.
  - destruct (Z.leb_spec (now w) t) as [Ht|]; [|discriminate].
    destruct (existsb _ _) eqn:Hkey; [|discriminate].
    injection Hstep as <-. repeat split; auto using clicked_key_on_piano.
  - destruct (Z.leb_spec (now w) t) as [Ht|]; [|discriminate].
    injection Hstep as <-. split; [exact Ht|].
    apply (handleKeyDown_pressKey key (at_time t w)).
  - destruct (timers w) as [|[due task] rest]; [discriminate|].
    destruct (is_random rnd); [|discriminate]. injection Hstep as <-.
    now exists due, task, rest.
Qed.

(** Induction over a run, one case per kind of event. *)
Lemma run_invariant (P : World -> Prop) :
  (forall t w, P w -> P (at_time t w)) ->
  (forall rnd w, P w -> gameState (ui w) = idle -> is_random rnd = true ->
                 P (exec (startGame (ui w) rnd) w)) ->
  (forall d w, P w -> gameState (ui w) = idle -> P (changeDifficulty d w)) ->
  (forall w, P w -> gameState (ui w) = playing -> P (dispatch playCurrentNote w)) ->
  (forall note w, P w -> In note piano_keys -> P (pressKey note w)) ->
  (forall due task rest rnd w,
      P w -> timers w = (due, task) :: rest -> is_random rnd = true ->
      P (exec (task_body task rnd)
              (mkWorld (ui w) (Z.max (now w) due) rest (tones w)))) ->
  forall evs w w', P w -> run evs w = Some w' -> P w'.
Proof.
  intros Htime Hbegin Hdiff Hreplay Hpress Hfire.
  induction evs as [|ev evs IH]; intros w w' HP Hrun; cbn [run] in Hrun.
  - now injection Hrun as <-.
  - destruct (step ev w) as [w1|] eqn:Hstep; [|discriminate].
    apply (IH w1 w'); [|exact Hrun]. clear IH Hrun.
    apply step_shape in Hstep.
    destruct ev as [t rnd|t d|t|t note|t key|rnd].
    + destruct Hstep as (Hgs & Hrnd & _ & ->).
      apply (Hbegin rnd (at_time t w)); auto.
    + destruct Hstep as (Hgs & _ & ->). apply (Hdiff d (at_time t w)); auto.
    + destruct Hstep as (Hgs & _ & ->). apply (Hreplay (at_time t w)); auto.
    + destruct Hstep as (Hkey & _ & ->). apply (Hpress note (at_time t w)); auto.
    + destruct Hstep as (_ & ->).
      destruct (keyMap key) as [note|] eqn:Hmap; [|auto].
      apply (Hpress note (at_time t w)); eauto using keyMap_piano_key.
    + destruct Hstep as (due & task & rest & Hq & Hrnd & ->). now apply Hfire.
Qed.

(** ** The account of score and streak, highlights and progress *)

Ltac fields :=
  cbn [ui now timers tones score streak gameState currentNote pressedKey
       correctKey wrongKey targetKey feedback difficulty at_time].

Lemma In_schedule (x e : Z * Task) (q : TimerQueue) :
  In x (schedule e q) <-> x = e \/ In x q.
Proof.
  induction q as [|y q IH]; cbn [schedule].
  - simpl. intuition.
  - destruct (fst e <? fst y); simpl; simpl in IH; intuition.
Qed.

Lemma initial_steady : Steady initial.
Proof.
  constructor; fields; cbn; try lia; try discriminate; auto.
  - now exists 0.
  - intro H. now elim H.
Qed.

(** [startGame] sets up a steady round on any steady account. *)
Lemma startGame_steady (render : State) (rnd : Q) (v : World) :
  is_random rnd = true ->
  0 <= streak (ui v) ->
  5 * streak (ui v) * (streak (ui v) + 1) <= score (ui v) ->
  (exists k, score (ui v) = 10 * k) ->
  Steady (exec (startGame render rnd) v).
Proof.
  intros Hrnd Hstreak Hscore Htens. apply is_random_spec in Hrnd as [Hlo Hhi].
  destruct (draw_in_set render rnd Hlo Hhi) as [n [Hn _]].
  rewrite startGame_world. cbv zeta. rewrite Hn.
  constructor; fields; auto; try discriminate.
  - now exists n.
  - intros _. eexists. split; [apply In_schedule; left; reflexivity|reflexivity].
Qed.

Lemma pressKey_steady (note : string) (w : World) :
  Steady w -> Steady (pressKey note w).
Proof.
  intros [Hstreak Hscore [k Hk] Htarget Hcorrect Hwrong Hfb Hround Hfresh Hprog].
  unfold pressKey, dispatch.
  assert (Hcase : gameState (ui w) = waiting \/ gameState (ui w) <> waiting)
    by (destruct (gameState (ui w)); auto; right; discriminate).
  destruct Hcase as [Hgs|Hgs];
    [|rewrite handleKeyPress_idle by exact Hgs; constructor; eauto].
  destruct Hround as [target Htgt]; [rewrite Hgs; discriminate|].
  destruct (strict_eq note (currentNote (ui w))) eqn:Hcmp.
  - assert (Hcur : currentNote (ui w) = Some note).
    { rewrite Htgt in Hcmp |- *. apply String.eqb_eq in Hcmp. now subst. }
    rewrite (handleKeyPress_hit _ _ _ Hgs Hcur).
    constructor; fields; auto; try (rewrite Hgs; discriminate); try nia.
    + exists (k + (streak (ui w) + 1)). lia.
    + now intros n [= <-].
    + now exists target.
  - rewrite (handleKeyPress_miss _ _ _ Hgs Hcmp).
    constructor; fields; auto; try (rewrite Hgs; discriminate); try nia.
    + now exists k.
    + intros n [= <-] Hcur. rewrite Hcur, strict_eq_same in Hcmp. discriminate.
    + right. right. exists target. rewrite Htgt. now split.
    + now exists target.
Qed.

Lemma fire_steady (due : Z) (task : Task) (rest : TimerQueue) (rnd : Q) (w : World) :
  Steady w -> timers w = (due, task) :: rest -> is_random rnd = true ->
  Steady (exec (task_body task rnd)
               (mkWorld (ui w) (Z.max (now w) due) rest (tones w))).
Proof.
  intros [Hstreak Hscore Htens Htarget Hcorrect Hwrong Hfb Hround Hfresh Hprog] Hq Hrnd.
  assert (Hbusy : gameState (ui w) <> idle).
  { intro Hgs. destruct (Hfresh Hgs) as (_ & _ & _ & Hnone & _).
    rewrite Hnone in Hq. discriminate. }
  assert (Hrest : leads_to_waiting task = false -> gameState (ui w) = playing ->
                  exists e, In e rest /\ leads_to_waiting (snd e) = true).
  { intros Htask Hgs. destruct (Hprog Hgs) as [e [Hin He]].
    rewrite Hq in Hin. destruct Hin as [<-|Hin]; [|now exists e].
    cbn [snd] in He. congruence. }
  destruct task as [|r|r|o|]; cbn [task_body].
  - constructor; cbn [exec fold_left exec1 apply_setter]; fields; auto.
    intro Hgs. now elim Hbusy.
  - rewrite exec_cons. now apply startGame_steady.
  - rewrite 2 exec_cons. now apply startGame_steady.
  - constructor; cbn [exec fold_left exec1 apply_setter]; fields; auto.
    + intro Hgs. now elim Hbusy.
    + intros _. eexists. split; [apply In_schedule; left; reflexivity|reflexivity].
  - constructor; cbn [exec fold_left exec1 apply_setter]; fields; auto;
      discriminate.
Qed.

Lemma run_steady (evs : list Event) (w w' : World) :
  Steady w -> run evs w = Some w' -> Steady w'.
Proof.
  revert evs w w'. apply (run_invariant Steady).
  - intros t w [? ? ? ? ? ? ? ? ? ?]. now constructor.
  - intros rnd w [Hstreak Hscore Htens _ _ _ _ _ _ _] _ Hrnd.
    now apply startGame_steady.
  - intros d w [? ? ? ? ? ? ? ? ? ?] _. now constructor.
  - intros w [Hstreak Hscore Htens Htarget Hcorrect Hwrong Hfb Hround Hfresh Hprog] Hgs.
    unfold dispatch, playCurrentNote.
    destruct (Hround ltac:(rewrite Hgs; discriminate)) as [n Hn]. rewrite Hn.
    constructor; cbn [exec fold_left exec1]; fields; auto.
    rewrite Hgs. discriminate.
  - intros note w HS _. now apply pressKey_steady.
  - intros due task rest rnd w. apply fire_steady.
Qed.

(** X1. In every world a run reaches, the streak is not negative, the
    score is a multiple of 10, and the score is at least what the current
    streak alone has earned: 10 + 20 + ... + 10 * streak. *)
Theorem score_account (evs : list Event) (w : World) :
  run evs initial = Some w ->
  0 <= streak (ui w)
  /\ 5 * streak (ui w) * (streak (ui w) + 1) <= score (ui w)
  /\ exists k, score (ui w) = 10 * k.
Proof.
  intro Hrun. now destruct (run_steady evs initial w initial_steady Hrun).
Qed.

(** X2. In every world a run reaches, the highlights agree with the
    current target: the target highlight is empty or is the current note,
    a key marked correct is the current note, and a key marked wrong is
    not the current note. *)
Theorem highlights_agree_with_target (evs : list Event) (w : World) :
  run evs initial = Some w ->
  (targetKey (ui w) = None \/ targetKey (ui w) = currentNote (ui w))
  /\ (forall n, correctKey (ui w) = Some n -> currentNote (ui w) = Some n)
  /\ (forall n, wrongKey (ui w) = Some n -> currentNote (ui w) <> Some n).
Proof.
  intro Hrun. now destruct (run_steady evs initial w initial_steady Hrun).
Qed.

(** X3. What the piano shows is true of the round: in every world a run
    reaches, a key drawn green (correct) or amber (target) is the current
    note and a key drawn red (wrong) is not, whether the key is black or
    white, hovered or not. *)
Theorem key_colours_agree_with_target
  (evs : list Event) (w : World) (isBlack : bool) (note : string) (hovered : bool) :
  run evs initial = Some w ->
  let colour := Piano_key_color (ui w) isBlack note hovered in
  (colour = "#22c55e" -> currentNote (ui w) = Some note)
  /\ (colour = "#ef4444" -> currentNote (ui w) <> Some note)
  /\ (colour = "#fbbf24" -> currentNote (ui w) = Some note).
Proof.
  intros Hrun colour. subst colour.
  destruct (run_steady evs initial w initial_steady Hrun)
    as [_ _ _ Htarget Hcorrect Hwrong _ _ _ _].
  assert (Hmark : forall cell, strict_eq note cell = true -> cell = Some note).
  { intros [c|] H; [|discriminate]. apply String.eqb_eq in H. now subst. }
  unfold Piano_key_color, key_color.
  destruct (strict_eq note (correctKey (ui w))) eqn:Hc;
    [apply Hmark, Hcorrect in Hc; repeat split; intros; auto; discriminate|].
  destruct (strict_eq note (wrongKey (ui w))) eqn:Hw;
    [apply Hmark, Hwrong in Hw; repeat split; intros; auto; discriminate|].
  destruct (strict_eq note (targetKey (ui w))) eqn:Ht.
  - apply Hmark in Ht.
    assert (Hcur : currentNote (ui w) = Some note)
      by (destruct Htarget as [Hn|Hn]; congruence).
    repeat split; intros; auto; discriminate.
  - destruct hovered, isBlack; repeat split; intros; discriminate.
Qed.

Lemma miss_message_red (n : string) :
  In n piano_keys -> feedback_style ("✗ It was " ++ n) = red.
Proof.
  intro Hkey. cbv [piano_keys WHITE_KEYS BLACK_KEYS app] in Hkey.
  repeat (destruct Hkey as [<-|Hkey]; [reflexivity|]). contradiction.
Qed.

(** X4. The feedback line is drawn as the outcome it reports: in every
    world a run reaches it is hidden exactly when the feedback is empty,
    green exactly for the message of a correct guess, and red exactly for
    the message that names the current target after an incorrect guess. *)
Theorem feedback_style_tells_outcome (evs : list Event) (w : World) :
  run evs initial = Some w ->
  match feedback_style (feedback (ui w)) with
  | hidden => feedback (ui w) = ""
  | green => feedback (ui w) = "✓ PERFECT!"
  | red => exists n, currentNote (ui w) = Some n
                     /\ feedback (ui w) = "✗ It was " ++ n
  end.
Proof.
  intro Hrun.
  destruct (run_steady evs initial w initial_steady Hrun)
    as [_ _ _ _ _ _ Hfb _ _ _].
  destruct (run_sound evs initial w initial_sound Hrun) as [_ Hnote _ _].
  destruct Hfb as [Hfb|[Hfb|[n [Hcur Hfb]]]]; rewrite Hfb.
  - reflexivity.
  - reflexivity.
  - rewrite (miss_message_red n (Hnote n Hcur)). now exists n.
Qed.

(** X5. The idle state is only ever the fresh state: a world a run reaches
    in the idle state has score 0, streak 0, no current note, no pending
    timer and no tone requested. *)
Theorem idle_only_when_fresh (evs : list Event) (w : World) :
  run evs initial = Some w ->
  gameState (ui w) = idle ->
  score (ui w) = 0 /\ streak (ui w) = 0 /\ currentNote (ui w) = None
  /\ timers w = [] /\ tones w = [].
Proof.
  intros Hrun Hgs.
  destruct (run_steady evs initial w initial_steady Hrun)
    as [_ _ _ _ _ _ _ _ Hfresh _].
  now apply Hfresh.
Qed.

(** X6. A round never hangs in the playing state: in every world a run
    reaches in the playing state, a callback that plays the tone or enters
    the waiting state is pending; with no timer pending the game is idle
    or waiting for a guess. *)
Theorem playing_round_has_waiting_pending (evs : list Event) (w : World) :
  run evs initial = Some w ->
  (gameState (ui w) = playing ->
   exists e, In e (timers w) /\ leads_to_waiting (snd e) = true)
  /\ (timers w = [] -> gameState (ui w) = idle \/ gameState (ui w) = waiting).
Proof.
  intro Hrun.
  destruct (run_steady evs initial w initial_steady Hrun)
    as [_ _ _ _ _ _ _ _ _ Hprog].
  split; [exact Hprog|].
  intro Hq. destruct (gameState (ui w)) eqn:Hgs; auto.
  destruct (Hprog eq_refl) as [e [Hin _]]. rewrite Hq in Hin. contradiction.
Qed.

(** ** The target and the selected difficulty *)

Lemma getAvailableNotes_difficulty (a b : State) :
  difficulty a = difficulty b -> getAvailableNotes a = getAvailableNotes b.
Proof. intro H. unfold getAvailableNotes. now rewrite H. Qed.

(** A key press leaves the game state, the current note and the
    difficulty as they are. *)
Lemma pressKey_round (note : string) (w : World) :
  gameState (ui (pressKey note w)) = gameState (ui w)
  /\ currentNote (ui (pressKey note w)) = currentNote (ui w)
  /\ difficulty (ui (pressKey note w)) = difficulty (ui w).
Proof.
  unfold pressKey, dispatch.
  destruct (handleKeyPress_keeps_round (ui w) note w) as [Hgs Hcur].
  repeat split; auto.
  apply (exec_frame difficulty sets_difficulty sets_difficulty_sound).
  apply handleKeyPress_keeps_difficulty.
Qed.

(** REPLAY NOTE touches no state cell. *)
Lemma playCurrentNote_ui (v : World) : ui (dispatch playCurrentNote v) = ui v.
Proof.
  unfold dispatch, playCurrentNote. now destruct (currentNote (ui v)).
Qed.

(** The game state after a timer callback. *)
Lemma task_body_gameState (task : Task) (rnd : Q) (v : World) :
  gameState (ui (exec (task_body task rnd) v))
  = match task with
    | ClearPressed => gameState (ui v)
    | AfterCorrect _ => playing
    | AfterWrong _ => playing
    | PlayThenWait _ => gameState (ui v)
    | EnterWaiting => waiting
    end.
Proof.
  destruct task; reflexivity.
Qed.

Lemma step_target_in_set (ev : Event) (w w' : World) :
  Sound w -> target_in_set w -> step ev w = Some w' -> target_in_set w'.
Proof.
  intros [Hidle _ Htimers _] Hset Hstep. apply step_shape in Hstep.
  assert (Hkeep : forall v,
             gameState (ui v) = gameState (ui w) ->
             currentNote (ui v) = currentNote (ui w) ->
             difficulty (ui v) = difficulty (ui w) ->
             target_in_set v).
  { intros v Hgs Hcur Hdiff Hbusy. rewrite Hgs in Hbusy.
    destruct (Hset Hbusy) as [n [Hn Hin]]. exists n.
    rewrite Hcur, (getAvailableNotes_difficulty _ _ Hdiff). now split. }
  assert (Hstart : forall r rnd v,
             is_random rnd = true ->
             difficulty r = difficulty (ui v) ->
             difficulty (ui v) = difficulty (ui w) ->
             target_in_set (exec (startGame r rnd) v)).
  { intros r rnd v Hrnd Hr Hv _. apply is_random_spec in Hrnd as [Hlo Hhi].
    destruct (draw_in_set r rnd Hlo Hhi) as [n [Hn Hin]].
    rewrite startGame_world. cbv zeta. rewrite Hn. exists n.
    split; [reflexivity|].
    erewrite getAvailableNotes_difficulty; [exact Hin|].
    fields. now rewrite Hr. }
  destruct ev as [t rnd|t d|t|t note|t key|rnd].
  - destruct Hstep as (_ & Hrnd & _ & ->). now apply Hstart.
  - destruct Hstep as (Hgs & _ & ->). intro Hbusy. now elim Hbusy.
  - destruct Hstep as (_ & _ & ->). apply Hkeep; now rewrite playCurrentNote_ui.
  - destruct Hstep as (_ & _ & ->).
    destruct (pressKey_round note (at_time t w)) as (Hgs & Hcur & Hdiff).
    now apply Hkeep.
  - destruct Hstep as (_ & ->). destruct (keyMap key) as [note|].
    + destruct (pressKey_round note (at_time t w)) as (Hgs & Hcur & Hdiff).
      now apply Hkeep.
    + now apply Hkeep.
  - destruct Hstep as (due & task & rest & Hq & Hrnd & ->).
    rewrite Hq in Htimers. apply Forall_cons_iff in Htimers as [Htask _].
    cbn [snd] in Htask.
    assert (Hbusy : gameState (ui w) <> idle)
      by (intro Hgs; rewrite (Hidle Hgs) in Hq; discriminate).
    destruct task as [|r|r|o|]; cbn [task_body task_sound] in *.
    + now apply Hkeep.
    + rewrite exec_cons. now apply Hstart.
    + rewrite 2 exec_cons. now apply Hstart.
    + now apply Hkeep.
    + intros _. destruct (Hset Hbusy) as [n [Hn Hin]]. now exists n.
Qed.

Lemma run_target_in_set (evs : list Event) :
  forall w w', Sound w -> target_in_set w -> run evs w = Some w' -> target_in_set w'.
Proof.
  induction evs as [|ev evs IH]; intros w w' HS Hset Hrun; cbn [run] in Hrun.
  - now injection Hrun as <-.
  - destruct (step ev w) as [w1|] eqn:Hstep; [|discriminate].
    apply (IH w1 w'); eauto using step_sound, step_target_in_set.
Qed.

(** X7. In every world a run reaches after the first BEGIN, there is a
    current note and it belongs to the note set of the difficulty then
    selected, whichever callback started the round. *)
Theorem target_of_selected_difficulty (evs : list Event) (w : World) :
  run evs initial = Some w ->
  gameState (ui w) <> idle ->
  exists n, currentNote (ui w) = Some n /\ In n (getAvailableNotes (ui w)).
Proof.
  intros Hrun. apply (run_target_in_set evs initial w initial_sound); [|exact Hrun].
  intro H. now elim H.
Qed.

(** X8. Once a round has started the game never shows the idle state
    again, so BEGIN and the difficulty buttons are gone for the session
    and the difficulty keeps the value it had: from any world that is not
    idle, every run ends in a world that is not idle and has the same
    difficulty. *)
Theorem round_never_returns_to_idle (evs : list Event) (w w' : World) :
  gameState (ui w) <> idle ->
  run evs w = Some w' ->
  gameState (ui w') <> idle /\ difficulty (ui w') = difficulty (ui w).
Proof.
  intros Hbusy Hrun.
  apply (run_invariant
           (fun v => gameState (ui v) <> idle /\ difficulty (ui v) = difficulty (ui w)))
    with (evs := evs) (w := w); auto.
  - intros rnd v [Hv _] Hgs _. now elim Hv.
  - intros d v [Hv _] Hgs. now elim Hv.
  - intros v [Hv Hd] _. now rewrite playCurrentNote_ui.
  - intros note v [Hv Hd] _.
    destruct (pressKey_round note v) as (Hgs & _ & Hdiff).
    now rewrite Hgs, Hdiff.
  - intros due task rest rnd v [Hv Hd] _ _. split.
    + rewrite task_body_gameState. now destruct task.
    + rewrite (exec_frame difficulty sets_difficulty sets_difficulty_sound)
        by apply task_body_keeps_difficulty.
      exact Hd.
Qed.

(** ** Who changes score and streak *)

Lemma sets_score_sound (c : Cmd) (s : State) :
  sets_score c = false -> score (apply_setter c s) = score s.
Proof. destruct c; simpl; congruence. Qed.

Lemma sets_streak_sound (c : Cmd) (s : State) :
  sets_streak c = false -> streak (apply_setter c s) = streak s.
Proof. destruct c; simpl; congruence. Qed.

(** Commands that set neither score nor streak leave both alone. *)
Lemma exec_keeps_account (cmds : list Cmd) (v : World) :
  forallb (fun c => negb (sets_score c)) cmds = true ->
  forallb (fun c => negb (sets_streak c)) cmds = true ->
  score (ui (exec cmds v)) = score (ui v) /\ streak (ui (exec cmds v)) = streak (ui v).
Proof.
  intros Hscore Hstreak. split.
  - now apply (exec_frame score sets_score sets_score_sound).
  - now apply (exec_frame streak sets_streak sets_streak_sound).
Qed.

(** The three things a key press can do to the account. *)
Lemma pressKey_account (note : string) (w : World) :
  (score (ui (pressKey note w)) = score (ui w)
   /\ streak (ui (pressKey note w)) = streak (ui w)
   /\ gameState (ui w) <> waiting)
  \/ (gameState (ui w) = waiting
      /\ currentNote (ui w) = Some note
      /\ score (ui (pressKey note w)) = score (ui w) + 10 * (streak (ui w) + 1)
      /\ streak (ui (pressKey note w)) = streak (ui w) + 1)
  \/ (gameState (ui w) = waiting
      /\ currentNote (ui w) <> Some note
      /\ score (ui (pressKey note w)) = score (ui w)
      /\ streak (ui (pressKey note w)) = 0).
Proof.
  unfold pressKey, dispatch.
  assert (Hcase : gameState (ui w) = waiting \/ gameState (ui w) <> waiting)
    by (destruct (gameState (ui w)); auto; right; discriminate).
  destruct Hcase as [Hgs|Hgs];
    [|left; now rewrite handleKeyPress_idle].
  right. destruct (strict_eq note (currentNote (ui w))) eqn:Hcmp.
  - assert (Hcur : currentNote (ui w) = Some note).
    { destruct (currentNote (ui w)) as [c|]; [|discriminate].
      apply String.eqb_eq in Hcmp. now subst. }
    left. rewrite (handleKeyPress_hit _ _ _ Hgs Hcur). now repeat split.
  - right. rewrite (handleKeyPress_miss _ _ _ Hgs Hcmp). repeat split; auto.
    intro Hcur. rewrite Hcur, strict_eq_same in Hcmp. discriminate.
Qed.

(** The same for any event. *)
Lemma step_account (ev : Event) (w w' : World) :
  step ev w = Some w' ->
  (score (ui w') = score (ui w) /\ streak (ui w') = streak (ui w))
  \/ exists note,
       guess_of ev = Some note
       /\ gameState (ui w) = waiting
       /\ ((currentNote (ui w) = Some note
            /\ score (ui w') = score (ui w) + 10 * (streak (ui w) + 1)
            /\ streak (ui w') = streak (ui w) + 1)
           \/ (currentNote (ui w) <> Some note
               /\ score (ui w') = score (ui w)
               /\ streak (ui w') = 0)).
Proof.
  intro Hstep. apply step_shape in Hstep.
  assert (Hpress : forall t note,
             guess_of ev = Some note -> w' = pressKey note (at_time t w) ->
             (score (ui w') = score (ui w) /\ streak (ui w') = streak (ui w))
             \/ exists note,
                 guess_of ev = Some note
                 /\ gameState (ui w) = waiting
                 /\ ((currentNote (ui w) = Some note
                      /\ score (ui w') = score (ui w) + 10 * (streak (ui w) + 1)
                      /\ streak (ui w') = streak (ui w) + 1)
                     \/ (currentNote (ui w) <> Some note
                         /\ score (ui w') = score (ui w)
                         /\ streak (ui w') = 0))).
  { intros t note Hguess ->.
    destruct (pressKey_account note (at_time t w))
      as [(Hs & Hk & _)|[(Hgs & Hcur & Hs & Hk)|(Hgs & Hcur & Hs & Hk)]];
      [left; now split | right; exists note .. ]; repeat split; auto. }
  destruct ev as [t rnd|t d|t|t note|t key|rnd]; cbn [guess_of] in *.
  - destruct Hstep as (_ & _ & _ & ->). left.
    now apply (exec_keeps_account (startGame (ui w) rnd) (at_time t w)).
  - destruct Hstep as (_ & _ & ->). left. now split.
  - destruct Hstep as (_ & _ & ->). left. now rewrite playCurrentNote_ui.
  - destruct Hstep as (_ & _ & Hw). now apply (Hpress t note).
  - destruct Hstep as (_ & Hw). destruct (keyMap key) as [note|].
    + now apply (Hpress t note).
    + left. now subst w'.
  - destruct Hstep as (due & task & rest & _ & _ & ->). left.
    apply (exec_keeps_account
             (task_body task rnd)
             (mkWorld (ui w) (Z.max (now w) due) rest (tones w)));
      now destruct task.
Qed.

(** X9. Score and streak are changed by an accepted guess and by nothing
    else: if one event changes either of them, the event is a key press
    made in the waiting state; a press of the current note adds
    10 * (streak + 1) to the score and 1 to the streak, any other press
    leaves the score and sets the streak to 0.  Timers, BEGIN, REPLAY NOTE
    and the difficulty buttons never touch them. *)
Theorem account_changes_only_by_guess (ev : Event) (w w' : World) :
  step ev w = Some w' ->
  score (ui w') <> score (ui w) \/ streak (ui w') <> streak (ui w) ->
  exists note,
    guess_of ev = Some note
    /\ gameState (ui w) = waiting
    /\ ((currentNote (ui w) = Some note
         /\ score (ui w') = score (ui w) + 10 * (streak (ui w) + 1)
         /\ streak (ui w') = streak (ui w) + 1)
        \/ (currentNote (ui w) <> Some note
            /\ score (ui w') = score (ui w)
            /\ streak (ui w') = 0)).
Proof.
  intros Hstep Hchg.
  destruct (step_account ev w w' Hstep) as [[Hs Hk]|Hguess]; [|exact Hguess].
  destruct Hchg as [H|H]; now elim H.
Qed.

Lemma run_score_le (evs : list Event) :
  forall w w', Steady w -> run evs w = Some w' -> score (ui w) <= score (ui w').
Proof.
  induction evs as [|ev evs IH]; intros w w' HS Hrun; cbn [run] in Hrun.
  - injection Hrun as <-. lia.
  - destruct (step ev w) as [w1|] eqn:Hstep; [|discriminate].
    assert (HS1 : Steady w1)
      by (apply (run_steady [ev] w w1 HS); cbn [run]; now rewrite Hstep).
    specialize (IH w1 w' HS1 Hrun).
    destruct HS as [Hstreak _ _ _ _ _ _ _ _ _].
    destruct (step_account ev w w1 Hstep)
      as [[Hs _]|(note & _ & _ & [(_ & Hs & _)|(_ & Hs & _)])]; lia.
Qed.

(** X10. The score never goes down: between any two worlds of a run the
    later score is at least the earlier one. *)
Theorem score_never_decreases (before after : list Event) (w w' : World) :
  run before initial = Some w ->
  run after w = Some w' ->
  score (ui w) <= score (ui w').
Proof.
  intros Hw Hw'. apply (run_score_le after w w'); [|exact Hw'].
  exact (run_steady before initial w initial_steady Hw).
Qed.

(** ** Keyboard and mouse *)

(** X11. A key of the computer keyboard that the key map has an entry for
    does, in every world, exactly what a click on its piano key does; any
    other key, the names that every object inherits apart, lets the
    moment pass and changes nothing. *)
Theorem mapped_key_is_click (t : Z) (key : string) (w : World) :
  inherited key = false ->
  step (KeyDown t key) w
  = match keyMap key with
    | Some note => step (ClickKey t note) w
    | None => if now w <=? t then Some (at_time t w) else None
    end.
Proof.
  intros _. cbn [step]. destruct (now w <=? t); [|now destruct (keyMap key)].
  rewrite handleKeyDown_pressKey.
  destruct (keyMap key) as [note|] eqn:Hmap; [|reflexivity].
  assert (Hkey : existsb (String.eqb note) piano_keys = true).
  { apply existsb_exists. exists note.
    split; [eapply keyMap_piano_key; eauto | apply String.eqb_refl]. }
  cbn [andb]. now rewrite Hkey.
Qed.

(** ** A whole round *)

Ltac decide_times :=
  repeat match goal with
    | |- context [?a <? ?b] =>
        first [rewrite (proj2 (Z.ltb_lt a b)) by lia
              | rewrite (proj2 (Z.ltb_ge a b)) by lia]
    | |- context [?a <=? ?b] => rewrite (proj2 (Z.leb_le a b)) by lia
    | |- context [Z.max ?a ?b] =>
        first [rewrite (Z.max_r a b) by lia | rewrite (Z.max_l a b) by lia]
    end.

(** From [startGame] to the waiting state, with no other timer pending:
    the tone of the target after 300 ms, the waiting state 500 ms later. *)
Lemma startGame_to_waiting (render : State) (rnd a b : Q) (n : string) (v : World) :
  array_get (getAvailableNotes render)
            (random_index rnd (getAvailableNotes render)) = Some n ->
  timers v = [] ->
  is_random a = true -> is_random b = true ->
  run [Fire a; Fire b] (exec (startGame render rnd) v)
  = Some (mkWorld (mkState (score (ui v)) (streak (ui v)) waiting (Some n)
                           (pressedKey (ui v)) None None None ""
                           (difficulty (ui v)))
                  (now v + 800) [] (tones v ++ [NOTES n])).
Proof.
  intros Hn Hq Ha Hb. rewrite startGame_world. cbv zeta. rewrite Hn, Hq.
  cbn [schedule run step timers]. rewrite Ha.
  cbn [task_body exec fold_left exec1 apply_setter NOTES_opt schedule
       ui now timers tones fst].
  rewrite Hb.
  cbn [task_body exec fold_left exec1 apply_setter
       ui now timers tones score streak gameState currentNote pressedKey
       correctKey wrongKey targetKey feedback difficulty].
  decide_times. do 2 f_equal. lia.
Qed.

Lemma step_click (t : Z) (note : string) (w : World) :
  now w <= t -> In note piano_keys ->
  step (ClickKey t note) w = Some (pressKey note (at_time t w)).
Proof.
  intros Ht Hkey. cbn [step].
  assert (Hex : existsb (String.eqb note) piano_keys = true)
    by (apply existsb_exists; exists note; split;
        [exact Hkey | apply String.eqb_refl]).
  rewrite Hex. now decide_times.
Qed.

(** X12. A round from BEGIN: in the idle state with no timer pending, a
    click on BEGIN followed by the two callbacks it sets off ends in the
    waiting state 800 ms after the click, with a target from the selected
    difficulty's set, exactly one tone requested (the target's), score and
    streak untouched, no highlight and no feedback. *)
Theorem round_after_begin (t : Z) (rnd a b : Q) (w : World) :
  gameState (ui w) = idle -> timers w = [] -> now w <= t ->
  is_random rnd = true -> is_random a = true -> is_random b = true ->
  exists n,
    In n (getAvailableNotes (ui w))
    /\ run [Begin t rnd; Fire a; Fire b] w
       = Some (mkWorld (mkState (score (ui w)) (streak (ui w)) waiting (Some n)
                                (pressedKey (ui w)) None None None ""
                                (difficulty (ui w)))
                       (t + 800) [] (tones w ++ [NOTES n])).
Proof.
  intros Hgs Hq Ht Hrnd Ha Hb.
  pose proof Hrnd as Hr. apply is_random_spec in Hr as [Hlo Hhi].
  destruct (draw_in_set (ui w) rnd Hlo Hhi) as [n [Hn Hin]].
  exists n. split; [exact Hin|].
  change (run [Begin t rnd; Fire a; Fire b] w)
    with (match step (Begin t rnd) w with
          | Some w1 => run [Fire a; Fire b] w1
          | None => None
          end).
  cbn [step]. rewrite Hgs, Hrnd. decide_times. cbn [GameState_eqb andb].
  unfold dispatch. cbn [ui at_time].
  now rewrite (startGame_to_waiting (ui w) rnd a b n (at_time t w)).
Qed.

(** X13. A round won: in the waiting state with no timer pending, a click
    on the current note followed by the four callbacks it sets off ends in
    the waiting state of the next round 2000 ms after the click: the score
    has grown by 10 * (streak + 1), the streak by 1, the target is a fresh
    draw from the selected difficulty's set, all highlights and the
    feedback are cleared, and two tones were requested, the pressed key's
    and the new target's. *)
Theorem round_after_correct_guess
  (t : Z) (note : string) (a rnd b c : Q) (w : World) :
  gameState (ui w) = waiting -> currentNote (ui w) = Some note ->
  In note piano_keys -> timers w = [] -> now w <= t ->
  is_random a = true -> is_random rnd = true ->
  is_random b = true -> is_random c = true ->
  exists n,
    In n (getAvailableNotes (ui w))
    /\ run [ClickKey t note; Fire a; Fire rnd; Fire b; Fire c] w
       = Some (mkWorld (mkState (score (ui w) + 10 * (streak (ui w) + 1))
                                (streak (ui w) + 1) waiting (Some n)
                                None None None None "" (difficulty (ui w)))
                       (t + 2000) [] (tones w ++ [NOTES note; NOTES n])).
Proof.
  intros Hgs Hcur Hkey Hq Ht Ha Hrnd Hb Hc.
  pose proof Hrnd as Hr. apply is_random_spec in Hr as [Hlo Hhi].
  destruct (draw_in_set (ui w) rnd Hlo Hhi) as [n [Hn Hin]].
  exists n. split; [exact Hin|].
  change (run [ClickKey t note; Fire a; Fire rnd; Fire b; Fire c] w)
    with (match step (ClickKey t note) w with
          | Some w1 => run [Fire a; Fire rnd; Fire b; Fire c] w1
          | None => None
          end).
  rewrite (step_click t note w Ht Hkey). unfold pressKey, dispatch.
  rewrite (handleKeyPress_hit _ _ _ Hgs Hcur). fields. rewrite Hq.
  cbn [schedule fst]. decide_times.
  change (run (Fire a :: Fire rnd :: ?rest) ?v)
    with (match step (Fire a) v with
          | Some w1 => match step (Fire rnd) w1 with
                       | Some w2 => run rest w2
                       | None => None
                       end
          | None => None
          end).
  cbn [step timers]. rewrite Ha.
  cbn [task_body exec fold_left exec1 apply_setter]. fields.
  cbn [step timers]. rewrite Hrnd. cbn [task_body]. rewrite exec_cons.
  rewrite (startGame_to_waiting (ui w) rnd b c n) by auto.
  cbn [exec1 apply_setter]. fields. decide_times.
  rewrite <- app_assoc. cbn [app]. do 2 f_equal. lia.
Qed.

(** X14. A round lost: in the waiting state with no timer pending, a
    click on a key other than the current note followed by the four
    callbacks it sets off ends in the waiting state of the next round
    2800 ms after the click: the score is unchanged, the streak is 0, the
    target is a fresh draw from the selected difficulty's set, the wrong
    and target highlights and the feedback are cleared. *)
Theorem round_after_incorrect_guess
  (t : Z) (note target : string) (a rnd b c : Q) (w : World) :
  gameState (ui w) = waiting -> currentNote (ui w) = Some target ->
  note <> target ->
  In note piano_keys -> timers w = [] -> now w <= t ->
  is_random a = true -> is_random rnd = true ->
  is_random b = true -> is_random c = true ->
  exists n,
    In n (getAvailableNotes (ui w))
    /\ run [ClickKey t note; Fire a; Fire rnd; Fire b; Fire c] w
       = Some (mkWorld (mkState (score (ui w)) 0 waiting (Some n)
                                None None None None "" (difficulty (ui w)))
                       (t + 2800) [] (tones w ++ [NOTES note; NOTES n])).
Proof.
  intros Hgs Hcur Hne Hkey Hq Ht Ha Hrnd Hb Hc.
  pose proof Hrnd as Hr. apply is_random_spec in Hr as [Hlo Hhi].
  destruct (draw_in_set (ui w) rnd Hlo Hhi) as [n [Hn Hin]].
  exists n. split; [exact Hin|].
  assert (Hmiss : strict_eq note (currentNote (ui (at_time t w))) = false)
    by (cbn [ui at_time]; rewrite Hcur; now apply strict_eq_other).
  change (run [ClickKey t note; Fire a; Fire rnd; Fire b; Fire c] w)
    with (match step (ClickKey t note) w with
          | Some w1 => run [Fire a; Fire rnd; Fire b; Fire c] w1
          | None => None
          end).
  rewrite (step_click t note w Ht Hkey). unfold pressKey, dispatch.
  rewrite (handleKeyPress_miss _ _ _ Hgs Hmiss). fields. rewrite Hq.
  cbn [schedule fst]. decide_times.
  change (run (Fire a :: Fire rnd :: ?rest) ?v)
    with (match step (Fire a) v with
          | Some w1 => match step (Fire rnd) w1 with
                       | Some w2 => run rest w2
                       | None => None
                       end
          | None => None
          end).
  cbn [step timers]. rewrite Ha.
  cbn [task_body exec fold_left exec1 apply_setter]. fields.
  cbn [step timers]. rewrite Hrnd. cbn [task_body]. rewrite 2 exec_cons.
  rewrite (startGame_to_waiting (ui w) rnd b c n) by auto.
  cbn [exec1 apply_setter]. fields. decide_times.
  rewrite <- app_assoc. cbn [app]. do 2 f_equal. lia.
Qed.

(** ** The draw *)

Lemma lookup_In {A : Type} (k : string) (v : A) (tbl : list (string * A)) :
  lookup k tbl = Some v -> In (k, v) tbl.
Proof.
  induction tbl as [|[k' v'] tbl IH]; cbn [lookup]; [discriminate|].
  destruct (String.eqb_spec k k') as [->|_].
  - intros [= ->]. now left.
  - intro H. right. now apply IH.
Qed.

Lemma NoDup_by_nodup (l : list string) : nodup string_dec l = l -> NoDup l.
Proof. intros <-. apply NoDup_nodup. Qed.

(** X16. Every note of a difficulty's set can become the target, whatever
    the round before was: for each note of the set there is a value of
    [Math.random()] with which [startGame] stores that note. *)
Theorem every_note_can_be_drawn (render : State) (n : string) (w : World) :
  In n (getAvailableNotes render) ->
  exists rnd,
    (0 <= rnd)%Q /\ (rnd < 1)%Q
    /\ currentNote (ui (exec (startGame render rnd) w)) = Some n.
Proof.
  intro Hin. apply In_nth_error in Hin as [k Hk].
  assert (Hlt : (k < length (getAvailableNotes render))%nat)
    by (apply nth_error_Some; congruence).
  set (len := Z.of_nat (length (getAvailableNotes render))).
  assert (Hlen : 0 < len) by (subst len; lia).
  exists (Z.of_nat k # Z.to_pos len).
  assert (Hidx : random_index (Z.of_nat k # Z.to_pos len) (getAvailableNotes render)
                 = Z.of_nat k).
  { unfold random_index, Qfloor. fold len. cbn [Qmult Qnum Qden inject_Z].
    rewrite Pos.mul_1_r, Z2Pos.id by exact Hlen. now apply Z.div_mul, Z.neq_sym, Z.lt_neq. }
  repeat split.
  - unfold Qle. cbn [Qnum Qden]. lia.
  - unfold Qlt. cbn [Qnum Qden]. rewrite Z2Pos.id by exact Hlen. subst len. lia.
  - rewrite startGame_world. cbv zeta. fields. rewrite Hidx. unfold array_get.
    destruct (Z.ltb_spec (Z.of_nat k) 0); [lia|]. now rewrite Nat2Z.id.
Qed.

(** ** The tables *)

(** X17. The note sets of the three difficulties are nested and free of
    repeats: easy has 7 notes, medium 14, hard 24, each note once, every
    easy note is a medium note and every medium note a hard note; so equal
    shares of the draw are equal chances per note. *)
Theorem note_sets_nested (e m h : State) :
  difficulty e = easy -> difficulty m = medium -> difficulty h = hard ->
  NoDup (getAvailableNotes e) /\ NoDup (getAvailableNotes m)
  /\ NoDup (getAvailableNotes h)
  /\ length (getAvailableNotes e) = 7%nat
  /\ length (getAvailableNotes m) = 14%nat
  /\ length (getAvailableNotes h) = 24%nat
  /\ incl (getAvailableNotes e) (getAvailableNotes m)
  /\ incl (getAvailableNotes m) (getAvailableNotes h).
Proof.
  intros He Hm Hh. unfold getAvailableNotes. rewrite He, Hm, Hh.
  repeat split; try (apply NoDup_by_nodup; reflexivity).
  - intros n Hn. cbv [firstn WHITE_KEYS] in Hn.
    repeat (destruct Hn as [<-|Hn]; [cbv [WHITE_KEYS In]; tauto|]).
    contradiction.
  - intros n Hn. apply in_or_app. now left.
Qed.

Lemma NOTES_piano_key (n : string) (f : Q) : NOTES n = Some f -> In n piano_keys.
Proof.
  intro H. apply lookup_In in H. cbv [NOTES_table] in H.
  repeat (destruct H as [[= <- _]|H]; [apply clicked_key_on_piano; reflexivity|]).
  contradiction.
Qed.

Lemma NOTES_positive (n : string) (f : Q) : NOTES n = Some f -> (0 < f)%Q.
Proof.
  intro H. apply lookup_In in H. cbv [NOTES_table] in H.
  repeat (destruct H as [[= _ <-]|H]; [reflexivity|]). contradiction.
Qed.

(** X18. The catalog and the piano name the same 24 notes: a note id has a
    frequency in [NOTES] exactly when [Piano] draws a key for it, no key
    is drawn twice, every frequency is positive, and the catalog lists its
    notes in strictly rising pitch, so no two notes share a frequency. *)
Theorem catalog_matches_piano :
  (forall n, In n piano_keys <-> exists f, NOTES n = Some f /\ (0 < f)%Q)
  /\ NoDup piano_keys
  /\ NoDup (map fst NOTES_table)
  /\ Sorted Qlt (map snd NOTES_table).
Proof.
  repeat split.
  - intro Hkey. destruct (NOTES n) as [f|] eqn:Hf.
    + exists f. split; [reflexivity | eapply NOTES_positive; eauto].
    + now apply piano_key_has_frequency in Hkey.
  - intros [f [Hf _]]. eapply NOTES_piano_key; eauto.
  - apply NoDup_by_nodup. reflexivity.
  - apply NoDup_by_nodup. reflexivity.
  - cbv [NOTES_table map snd]. repeat constructor.
Qed.

(** X19. The key map is sound and one to one: every note it names is a
    key of the piano with a frequency in the catalog, and no two keyboard
    keys are mapped to the same note. *)
Theorem keyMap_sound_and_injective :
  (forall key note,
      keyMap key = Some note ->
      In note piano_keys /\ exists f, NOTES note = Some f)
  /\ (forall key key' note,
         keyMap key = Some note -> keyMap key' = Some note -> key = key').
Proof.
  split.
  - intros key note Hmap.
    assert (Hkey : In note piano_keys) by (eapply keyMap_piano_key; eauto).
    split; [exact Hkey|].
    destruct (NOTES note) as [f|] eqn:Hf; [now exists f|].
    now apply piano_key_has_frequency in Hkey.
  - intros key key' note H H'.
    apply lookup_In in H, H'. cbv [keyMap_table] in H, H'.
    repeat (destruct H as [[= <- <-]|H];
            [repeat (destruct H' as [H'|H'];
                     [solve [inversion H'; subst; reflexivity]|]);
             contradiction|]).
    contradiction.
Qed.

(** X20. Which targets can be answered from the computer keyboard: every
    note of the easy set has a key; of the piano's keys exactly the seven
    upper notes F5 to B5 have none, and the white ones among them (F5, G5,
    A5, B5) are targets of the medium and of the hard set, where they can
    only be answered by a click. *)
Theorem keyboard_reach :
  (forall render note,
      difficulty render = easy -> In note (getAvailableNotes render) ->
      exists key, keyMap key = Some note)
  /\ (forall note,
         In note piano_keys ->
         (exists key, keyMap key = Some note) \/ In note keys_without_shortcut)
  /\ (forall key note,
         keyMap key = Some note -> ~ In note keys_without_shortcut)
  /\ (forall render note,
         difficulty render <> easy ->
         In note ["F5"; "G5"; "A5"; "B5"] ->
         In note (getAvailableNotes render) /\ In note keys_without_shortcut).
Proof.
  assert (Hrev : forall key note,
             In (key, note) keyMap_table -> keyMap key = Some note).
  { intros key note H. cbv [keyMap_table] in H.
    repeat (destruct H as [[= <- <-]|H]; [reflexivity|]). contradiction. }
  split; [|split; [|split]].
  - intros render note He Hin. unfold getAvailableNotes in Hin. rewrite He in Hin.
    cbv [firstn WHITE_KEYS] in Hin.
    repeat (destruct Hin as [<-|Hin];
            [eexists; apply Hrev; cbv [keyMap_table In]; tauto|]).
    contradiction.
  - intros note Hin. cbv [piano_keys WHITE_KEYS BLACK_KEYS app] in Hin.
    repeat (destruct Hin as [<-|Hin];
            [first [right; cbv [keys_without_shortcut In]; tauto
                   |left; eexists; apply Hrev; cbv [keyMap_table In]; tauto]|]).
    contradiction.
  - intros key note Hmap Hin. apply lookup_In in Hmap.
    cbv [keyMap_table] in Hmap. cbv [keys_without_shortcut] in Hin.
    repeat (destruct Hmap as [[= <- <-]|Hmap];
            [repeat (destruct Hin as [Hin|Hin]; [discriminate Hin|]);
             contradiction|]).
    contradiction.
  - intros render note Hd Hin. unfold getAvailableNotes.
    destruct (difficulty render); [now elim Hd| |];
      repeat (destruct Hin as [<-|Hin];
              [split; cbv [WHITE_KEYS BLACK_KEYS keys_without_shortcut app In];
               tauto|]);
      contradiction.
Qed.

(** X21. The layout table of the black keys fits the note names: the
    [i]-th black key is the sharp of the white key its offset points at,
    that white key has a right neighbour, and the black key's slot is
    exactly half way between the two; so no black key follows E or B. *)
Theorem black_keys_between_white_keys (i : nat) (black : string) :
  nth_error BLACK_KEYS i = Some black ->
  exists offset white slot,
    nth_error blackKeyOffsets i = Some offset
    /\ nth_error WHITE_KEYS offset = Some white
    /\ black = sharpen white
    /\ (S offset < length WHITE_KEYS)%nat
    /\ black_key_slot i = Some slot
    /\ (slot == (white_key_slot offset + white_key_slot (S offset)) / 2)%Q.
Proof.
  intro Hblack.
  do 10 (destruct i as [|i];
         [injection Hblack as <-; do 3 eexists;
          repeat split; try reflexivity; cbn; lia|]).
  destruct i; discriminate.
Qed.

(** ** Worked inputs, continued *)

Example two_misses_run : run two_misses initial = Some round_one_missed.
Proof. reflexivity. Qed.

Lemma score_account_witness :
  0 <= streak (ui third_round)
  /\ 5 * streak (ui third_round) * (streak (ui third_round) + 1)
     <= score (ui third_round)
  /\ exists k, score (ui third_round) = 10 * k.
Proof. exact (score_account two_hits third_round eq_refl). Defined.

Lemma highlights_agree_with_target_witness :
  (targetKey (ui round_one_missed) = None
   \/ targetKey (ui round_one_missed) = currentNote (ui round_one_missed))
  /\ (forall n, correctKey (ui round_one_missed) = Some n ->
                currentNote (ui round_one_missed) = Some n)
  /\ (forall n, wrongKey (ui round_one_missed) = Some n ->
                currentNote (ui round_one_missed) <> Some n).
Proof.
  exact (highlights_agree_with_target two_misses round_one_missed eq_refl).
Defined.

Lemma key_colours_agree_with_target_witness :
  let colour := Piano_key_color (ui round_one_missed) false "E4" false in
  (colour = "#22c55e" -> currentNote (ui round_one_missed) = Some "E4")
  /\ (colour = "#ef4444" -> currentNote (ui round_one_missed) <> Some "E4")
  /\ (colour = "#fbbf24" -> currentNote (ui round_one_missed) = Some "E4").
Proof.
  exact (key_colours_agree_with_target
           two_misses round_one_missed false "E4" false eq_refl).
Defined.

Lemma feedback_style_tells_outcome_witness :
  match feedback_style (feedback (ui round_one_missed)) with
  | hidden => feedback (ui round_one_missed) = ""
  | green => feedback (ui round_one_missed) = "✓ PERFECT!"
  | red => exists n, currentNote (ui round_one_missed) = Some n
                     /\ feedback (ui round_one_missed) = "✗ It was " ++ n
  end.
Proof.
  exact (feedback_style_tells_outcome two_misses round_one_missed eq_refl).
Defined.

Lemma idle_only_when_fresh_witness :
  score (ui (changeDifficulty hard initial)) = 0
  /\ streak (ui (changeDifficulty hard initial)) = 0
  /\ currentNote (ui (changeDifficulty hard initial)) = None
  /\ timers (changeDifficulty hard initial) = []
  /\ tones (changeDifficulty hard initial) = [].
Proof.
  exact (idle_only_when_fresh
           [ChangeDifficulty 0 hard] (changeDifficulty hard initial)
           eq_refl eq_refl).
Defined.

Lemma playing_round_has_waiting_pending_witness :
  (gameState (ui round_two_started) = playing ->
   exists e, In e (timers round_two_started) /\ leads_to_waiting (snd e) = true)
  /\ (timers round_two_started = [] ->
      gameState (ui round_two_started) = idle
      \/ gameState (ui round_two_started) = waiting).
Proof.
  exact (playing_round_has_waiting_pending
           (two_misses ++ [Fire (1 # 2)]) round_two_started eq_refl).
Defined.

Lemma target_of_selected_difficulty_witness :
  exists n, currentNote (ui third_round) = Some n
            /\ In n (getAvailableNotes (ui third_round)).
Proof.
  apply (target_of_selected_difficulty two_hits third_round);
    [reflexivity | discriminate].
Defined.

Lemma round_never_returns_to_idle_witness :
  gameState (ui round_one_missed) <> idle
  /\ difficulty (ui round_one_missed) = difficulty (ui waiting_C4).
Proof.
  apply (round_never_returns_to_idle
           [ClickKey 1000 "D4"; Fire 0; ClickKey 2500 "E4"; Fire 0]
           waiting_C4 round_one_missed);
    [discriminate | reflexivity].
Defined.

Lemma account_changes_only_by_guess_witness :
  exists note,
    guess_of (ClickKey 1100 "C4") = Some note
    /\ gameState (ui first_guess_missed) = waiting
    /\ ((currentNote (ui first_guess_missed) = Some note
         /\ score (ui second_guess_hit)
            = score (ui first_guess_missed) + 10 * (streak (ui first_guess_missed) + 1)
         /\ streak (ui second_guess_hit) = streak (ui first_guess_missed) + 1)
        \/ (currentNote (ui first_guess_missed) <> Some note
            /\ score (ui second_guess_hit) = score (ui first_guess_missed)
            /\ streak (ui second_guess_hit) = 0)).
Proof.
  apply (account_changes_only_by_guess
           (ClickKey 1100 "C4") first_guess_missed second_guess_hit);
    [reflexivity | left; discriminate].
Defined.

Lemma score_never_decreases_witness :
  score (ui waiting_C4) <= score (ui third_round).
Proof.
  apply (score_never_decreases
           first_round
           ([ClickKey 1000 "C4"; Fire 0; Fire 0; Fire 0; Fire 0]
            ++ [ClickKey 3000 "C4"; Fire 0; Fire 0; Fire 0; Fire 0])
           waiting_C4 third_round); reflexivity.
Defined.

Lemma round_after_begin_witness :
  exists n,
    In n (getAvailableNotes (ui initial))
    /\ run [Begin 0 0; Fire 0; Fire 0] initial
       = Some (mkWorld (mkState (score (ui initial)) (streak (ui initial)) waiting
                                (Some n) (pressedKey (ui initial)) None None None ""
                                (difficulty (ui initial)))
                       (0 + 800) [] (tones initial ++ [NOTES n])).
Proof.
  apply (round_after_begin 0 0 0 0 initial); reflexivity || discriminate.
Defined.

Lemma round_after_correct_guess_witness :
  exists n,
    In n (getAvailableNotes (ui waiting_C4))
    /\ run [ClickKey 1000 "C4"; Fire 0; Fire (1 # 2); Fire 0; Fire 0] waiting_C4
       = Some (mkWorld (mkState (score (ui waiting_C4)
                                 + 10 * (streak (ui waiting_C4) + 1))
                                (streak (ui waiting_C4) + 1) waiting (Some n)
                                None None None None ""
                                (difficulty (ui waiting_C4)))
                       (1000 + 2000) []
                       (tones waiting_C4 ++ [NOTES "C4"; NOTES n])).
Proof.
  apply (round_after_correct_guess 1000 "C4" 0 (1 # 2) 0 0 waiting_C4);
    first [reflexivity | discriminate | apply clicked_key_on_piano; reflexivity].
Defined.

Lemma round_after_incorrect_guess_witness :
  exists n,
    In n (getAvailableNotes (ui waiting_C4))
    /\ run [ClickKey 1000 "D4"; Fire 0; Fire (1 # 2); Fire 0; Fire 0] waiting_C4
       = Some (mkWorld (mkState (score (ui waiting_C4)) 0 waiting (Some n)
                                None None None None ""
                                (difficulty (ui waiting_C4)))
                       (1000 + 2800) []
                       (tones waiting_C4 ++ [NOTES "D4"; NOTES n])).
Proof.
  apply (round_after_incorrect_guess 1000 "D4" "C4" 0 (1 # 2) 0 0 waiting_C4);
    first [reflexivity | discriminate | apply clicked_key_on_piano; reflexivity].
Defined.

Lemma every_note_can_be_drawn_witness :
  exists rnd,
    (0 <= rnd)%Q /\ (rnd < 1)%Q
    /\ currentNote (ui (exec (startGame initial_state rnd) initial)) = Some "G4".
Proof.
  apply (every_note_can_be_drawn initial_state "G4" initial).
  apply in_or_app with (l := ["C4"; "D4"; "E4"; "F4"]). right. now left.
Defined.

Lemma note_sets_nested_witness :
  let e := mkState 0 0 idle None None None None None "" easy in
  let h := mkState 0 0 idle None None None None None "" hard in
  NoDup (getAvailableNotes e) /\ NoDup (getAvailableNotes initial_state)
  /\ NoDup (getAvailableNotes h)
  /\ length (getAvailableNotes e) = 7%nat
  /\ length (getAvailableNotes initial_state) = 14%nat
  /\ length (getAvailableNotes h) = 24%nat
  /\ incl (getAvailableNotes e) (getAvailableNotes initial_state)
  /\ incl (getAvailableNotes initial_state) (getAvailableNotes h).
Proof.
  exact (note_sets_nested
           (mkState 0 0 idle None None None None None "" easy)
           initial_state
           (mkState 0 0 idle None None None None None "" hard)
           eq_refl eq_refl eq_refl).
Defined.

Lemma black_keys_between_white_keys_witness :
  exists offset white slot,
    nth_error blackKeyOffsets 2 = Some offset
    /\ nth_error WHITE_KEYS offset = Some white
    /\ "F#4" = sharpen white
    /\ (S offset < length WHITE_KEYS)%nat
    /\ black_key_slot 2 = Some slot
    /\ (slot == (white_key_slot offset + white_key_slot (S offset)) / 2)%Q.
Proof. exact (black_keys_between_white_keys 2 "F#4" eq_refl). Defined.

Lemma tones_of_a_run_defined_witness :
  Forall (fun f => playNote_returns f = true) (tones round_one_missed).
Proof.
  exact (tones_of_a_run_defined two_misses round_one_missed eq_refl eq_refl).
Defined.

Lemma mapped_key_is_click_witness :
  step (KeyDown 1000 "a") waiting_C4
  = match keyMap "a" with
    | Some note => step (ClickKey 1000 note) waiting_C4
    | None => if now waiting_C4 <=? 1000 then Some (at_time 1000 waiting_C4) else None
    end.
Proof. exact (mapped_key_is_click 1000 "a" waiting_C4 eq_refl). Defined.

Lemma pending_restart_uses_selected_difficulty_witness :
  getAvailableNotes (ui waiting_C4) = getAvailableNotes (ui miss_pending).
Proof.
  apply (pending_restart_uses_selected_difficulty
           (first_round ++ [ClickKey 1000 "D4"; Fire 0])
           miss_pending 3000 (ui waiting_C4));
    [reflexivity | right; left; reflexivity].
Defined.

(** ** Replaying the note *)

(** X24. REPLAY NOTE, which the interface offers in the playing state
    only, requests the tone of the round's target once and changes nothing
    else: in a world a run reaches in the playing state, the click leaves
    every state cell and every pending timer as it is and adds the
    target's catalog frequency to the tones; outside the playing state
    there is no such click. *)
Theorem replay_requests_target_tone (evs : list Event) (w : World) (t : Z) :
  run evs initial = Some w ->
  now w <= t ->
  (gameState (ui w) = playing ->
   exists n f,
     currentNote (ui w) = Some n /\ NOTES n = Some f
     /\ step (ReplayNote t) w
        = Some (mkWorld (ui w) t (timers w) (tones w ++ [Some f])))
  /\ (gameState (ui w) <> playing -> step (ReplayNote t) w = None).
Proof.
  intros Hrun Ht. cbn [step]. decide_times. split; intro Hgs.
  - destruct (run_steady evs initial w initial_steady Hrun)
      as [_ _ _ _ _ _ _ Hround _ _].
    destruct (run_sound evs initial w initial_sound Hrun) as [_ Hnote _ _].
    destruct Hround as [n Hn]; [rewrite Hgs; discriminate|].
    destruct (NOTES n) as [f|] eqn:Hf;
      [|now apply Hnote, piano_key_has_frequency in Hn].
    exists n, f. rewrite Hgs. cbn [GameState_eqb andb].
    unfold dispatch, playCurrentNote. cbn [ui at_time]. rewrite Hn, Hf.
    now repeat split.
  - destruct (gameState (ui w)); try reflexivity. now elim Hgs.
Qed.

Lemma replay_requests_target_tone_witness :
  (gameState (ui round_two_started) = playing ->
   exists n f,
     currentNote (ui round_two_started) = Some n /\ NOTES n = Some f
     /\ step (ReplayNote 3100) round_two_started
        = Some (mkWorld (ui round_two_started) 3100 (timers round_two_started)
                        (tones round_two_started ++ [Some f])))
  /\ (gameState (ui round_two_started) <> playing ->
      step (ReplayNote 3100) round_two_started = None).
Proof.
  apply (replay_requests_target_tone
           (two_misses ++ [Fire (1 # 2)]) round_two_started 3100);
    [reflexivity | discriminate].
Defined.
